(** * cryptographer: RSAKey and VigenereKey

    A shallow embedding of [src/ciphers/rsa.py] and [src/ciphers/vigenere.py].

    Python integers are [Z]; [bytes] objects are lists of [byte]; an
    exception is a value of [exn] carried by [outcome]; loops that Python
    runs without a bound take a [fuel] argument and answer [OutOfFuel] when it
    is used up; the system random source is an infinite tape of integers;
    the floating-point [math.log] is a parameter of the codec. *)

From Stdlib Require Import ZArith Lia List Bool Ascii String Znumtheory.
From Stdlib Require Import Strings.Byte.
From Stdlib Require Import Zcong.
From Stdlib Require Import Zmod.ZmodInv.
Import ListNotations.

#[local] Open Scope Z_scope.

(* ------------------------------------------------------------------ *)
(** ** Outcomes of a Python call *)

Inductive exn : Type :=
| ValueError
| ZeroDivisionError
| AssertionError
| AttributeError
| IndexError
| BinasciiError.

Inductive outcome (A : Type) : Type :=
| Ok (a : A)
| Raise (e : exn)
| OutOfFuel.

Arguments Ok {A} a.
Arguments Raise {A} e.
Arguments OutOfFuel {A}.

Definition bind {A B : Type} (m : outcome A) (f : A -> outcome B) : outcome B :=
  match m with
  | Ok a => f a
  | Raise e => Raise e
  | OutOfFuel => OutOfFuel
  end.

Definition omap {A B : Type} (f : A -> B) (m : outcome A) : outcome B :=
  bind m (fun a => Ok (f a)).

Declare Scope outcome_scope.
Delimit Scope outcome_scope with outcome.
Notation "x <- m ;; k" := (bind m (fun x => k))
  (at level 61, m at next level, right associativity) : outcome_scope.
#[local] Open Scope outcome_scope.

(** [assert c] *)
Definition py_assert (c : bool) : outcome unit :=
  if c then Ok tt else Raise AssertionError.

(** The elements of [l] run left to right, stopping at the first that
    does not return. *)
Fixpoint sequence {A : Type} (l : list (outcome A)) : outcome (list A) :=
  match l with
  | [] => Ok []
  | m :: rest => a <- m ;; r <- sequence rest ;; Ok (a :: r)
  end.

(* ------------------------------------------------------------------ *)
(** ** Integers *)

(** [a // b] and [a % b]: Python floors, as [Z.div] and [Z.modulo] do. *)
Definition py_floordiv (a b : Z) : outcome Z :=
  if b =? 0 then Raise ZeroDivisionError else Ok (a / b).

Definition py_mod (a b : Z) : outcome Z :=
  if b =? 0 then Raise ZeroDivisionError else Ok (a mod b).

(** [pow(base, e, m)] (Python 3.8 and later): a zero modulus is a
    [ValueError]; a negative exponent goes through the inverse of [base],
    a [ValueError] when there is none. *)
Definition py_pow (base e m : Z) : outcome Z :=
  if m =? 0 then Raise ValueError
  else if e <? 0 then
    if Z.gcd base m =? 1 then Ok (Z.invmod base m ^ (- e) mod m)
    else Raise ValueError
  else Ok (base ^ e mod m).

(** The exact [floor (log256 n)] of [0 < n]. *)
Definition floor_log256 (n : Z) : Z := Z.log2 n / 8.

(** [int(math.log(n, 256))].  [math.log] is a [ValueError] outside its
    domain.  Inside, it divides two floating-point logarithms, which are
    not computed here: the integer it gives on [n] is [ilog n], for a
    function [ilog] that the codec takes as a parameter. *)
Definition log256 (ilog : Z -> Z) (n : Z) : outcome Z :=
  if n <=? 0 then Raise ValueError else Ok (ilog n).

(** The floating-point computation gives the exact logarithm on [n]. *)
Definition exact_at (ilog : Z -> Z) (n : Z) : Prop :=
  ilog n = floor_log256 n.

(** [range(start, stop, step)] as the list a [for] loop walks; the
    [fuel] bounds the number of items. *)
Fixpoint range_from (fuel : nat) (start stop step : Z) : list Z :=
  match fuel with
  | O => []
  | S f =>
      if start <? stop then start :: range_from f (start + step) stop step
      else []
  end.

(** [range(0, stop, step)]: a zero step is a [ValueError], a negative one
    gives nothing when [0 <= stop]. *)
Definition py_range (stop step : Z) : outcome (list Z) :=
  if step =? 0 then Raise ValueError
  else if step <? 0 then Ok []
  else Ok (range_from (Z.to_nat stop) 0 stop step).

(* ------------------------------------------------------------------ *)
(** ** Bytes *)

Abbreviation bytes := (list byte).

Definition byte_val (b : byte) : Z := Z.of_N (Byte.to_N b).

Definition byte_of (z : Z) : byte :=
  match Byte.of_N (Z.to_N z) with
  | Some b => b
  | None => x00
  end.

Definition len {A : Type} (l : list A) : Z := Z.of_nat (List.length l).

(** [data[lo:hi]] for [0 <= lo]. *)
Definition slice {A : Type} (data : list A) (lo hi : Z) : list A :=
  firstn (Z.to_nat (hi - lo)) (skipn (Z.to_nat lo) data).

(** [b'\x00' * n] *)
Definition zeros (n : Z) : bytes := repeat x00 (Z.to_nat n).

Definition is_x00 (b : byte) : bool := Byte.eqb b x00.

Fixpoint drop_x00 (l : bytes) : bytes :=
  match l with
  | [] => []
  | b :: t => if is_x00 b then drop_x00 t else l
  end.

(** [data.rstrip(b'\x00')] *)
Definition rstrip_x00 (data : bytes) : bytes := rev (drop_x00 (rev data)).

(** [data] ends in a null byte. *)
Definition ends_in_x00 (data : bytes) : bool :=
  match rev data with
  | b :: _ => is_x00 b
  | [] => false
  end.

(* ------------------------------------------------------------------ *)
(** ** Hexadecimal text, as [binascii] and [%x] write and read it *)

(** The lower-case digit for a value in [0, 16). *)
Definition hex_char (d : Z) : byte :=
  if d <? 10 then byte_of (48 + d) else byte_of (87 + d).

(** The value of a hexadecimal digit of either case. *)
Definition hex_digit_val (c : byte) : option Z :=
  let v := byte_val c in
  if (48 <=? v) && (v <=? 57) then Some (v - 48)
  else if (97 <=? v) && (v <=? 102) then Some (v - 87)
  else if (65 <=? v) && (v <=? 70) then Some (v - 55)
  else None.

(** [binascii.hexlify(data)], also [data.hex().encode()]. *)
Fixpoint hexlify (data : bytes) : bytes :=
  match data with
  | [] => []
  | b :: rest =>
      hex_char (byte_val b / 16) :: hex_char (byte_val b mod 16) :: hexlify rest
  end.

(** [binascii.unhexlify(s)]: an odd length or a character that is no
    hexadecimal digit is a [binascii.Error]. *)
Fixpoint unhexlify (s : bytes) : outcome bytes :=
  match s with
  | [] => Ok []
  | [_] => Raise BinasciiError
  | h :: l :: rest =>
      match hex_digit_val h, hex_digit_val l with
      | Some a, Some b =>
          r <- unhexlify rest ;; Ok (byte_of (16 * a + b) :: r)
      | _, _ => Raise BinasciiError
      end
  end.

(** [int(s, 16)] on the digit strings [hexlify] writes: the empty string
    and a character that is no digit are a [ValueError]. *)
Fixpoint int16_digits (acc : Z) (s : bytes) : outcome Z :=
  match s with
  | [] => Ok acc
  | c :: rest =>
      match hex_digit_val c with
      | Some d => int16_digits (16 * acc + d) rest
      | None => Raise ValueError
      end
  end.

Definition int16 (s : bytes) : outcome Z :=
  match s with
  | [] => Raise ValueError
  | _ => int16_digits 0 s
  end.

(** The [n] low hexadecimal digits of [v], most significant first. *)
Fixpoint be_digits (n : nat) (v : Z) : bytes :=
  match n with
  | O => []
  | S n' => hex_char ((v / 16 ^ Z.of_nat n') mod 16) :: be_digits n' v
  end.

(** The number of hexadecimal digits [%x] writes for [0 <= v]. *)
Definition hex_width (v : Z) : Z :=
  if v =? 0 then 1 else Z.log2 v / 4 + 1.

(** ['%0<width>x' % v]: at least [width] characters, zero-filled on the
    left, a minus sign first for a negative [v]. *)
Definition format_hex (width v : Z) : bytes :=
  if v <? 0 then
    x2d :: be_digits (Z.to_nat (Z.max (width - 1) (hex_width (- v)))) (- v)
  else be_digits (Z.to_nat (Z.max width (hex_width v))) v.

(* ------------------------------------------------------------------ *)
(** ** Text *)

(** The [data] argument of the ciphers: [bytes], or a [str] whose code
    points are below 256. *)
Inductive pydata : Type :=
| PyBytes (b : bytes)
| PyStr (s : string).

(** [s.encode()]: UTF-8. *)
Fixpoint encode (s : string) : bytes :=
  match s with
  | EmptyString => []
  | String c rest =>
      let v := Z.of_N (N_of_ascii c) in
      if v <? 128 then byte_of v :: encode rest
      else byte_of (192 + v / 64) :: byte_of (128 + v mod 64) :: encode rest
  end.

(** [data if isinstance(data, bytes) else data.encode()] *)
Definition to_bytes (data : pydata) : bytes :=
  match data with
  | PyBytes b => b
  | PyStr s => encode s
  end.

(** [len(data)] *)
Definition pylen (data : pydata) : Z :=
  match data with
  | PyBytes b => len b
  | PyStr s => Z.of_nat (String.length s)
  end.

(* ------------------------------------------------------------------ *)
(** ** The random source *)

(** [secrets] and [os.urandom] read the system's entropy.  A [tape] is
    one outcome of all the draws a run makes, in order; the state of the
    source is the position of the next draw. *)
Definition tape : Type := nat -> Z.

Definition rnd (A : Type) : Type := tape -> nat -> outcome (A * nat).

Definition rret {A : Type} (a : A) : rnd A := fun _ pos => Ok (a, pos).

Definition rbind {A B : Type} (m : rnd A) (f : A -> rnd B) : rnd B :=
  fun t pos =>
    match m t pos with
    | Ok (a, pos') => f a t pos'
    | Raise e => Raise e
    | OutOfFuel => OutOfFuel
    end.

Definition lift {A : Type} (m : outcome A) : rnd A :=
  fun _ pos => omap (fun a => (a, pos)) m.

Declare Scope rnd_scope.
Delimit Scope rnd_scope with rnd.
Notation "x <~ m ;; k" := (rbind m (fun x => k))
  (at level 61, m at next level, right associativity) : rnd_scope.
#[local] Open Scope rnd_scope.

(** [secrets.randbelow(n)]: a [ValueError] unless [0 < n]; every value of
    [0, n) is the draw of some tape. *)
Definition randbelow (n : Z) : rnd Z :=
  fun t pos =>
    if n <=? 0 then Raise ValueError else Ok (t pos mod n, S pos).

(** [os.urandom(n)] *)
Fixpoint urandom_bytes (n : nat) : rnd bytes :=
  match n with
  | O => rret []
  | S n' =>
      fun t pos =>
        match urandom_bytes n' t (S pos) with
        | Ok (rest, pos') => Ok (byte_of (t pos mod 256) :: rest, pos')
        | Raise e => Raise e
        | OutOfFuel => OutOfFuel
        end
  end.

(* ------------------------------------------------------------------ *)
(** ** RSAKey *)

Module RSA.

(** The attributes of an [RSAKey] object.  [__init__] binds [pubkey],
    [privkey], [composite] and [keys]; [public] and [private] exist only
    once [set_public] or [set_private] has bound them. *)
Record RSAKey : Type := mkRSAKey {
  pubkey : Z;
  privkey : Z;
  composite : Z;
  keys : Z * Z * Z;
  public : option Z;
  private : option Z
}.

(** [RSAKey(keys=ks)] *)
Definition init_keys (ks : Z * Z * Z) : RSAKey :=
  let '(pub, priv, comp) := ks in
  {| pubkey := pub; privkey := priv; composite := comp;
     keys := (pub, priv, comp); public := None; private := None |}.

(** Reading an attribute that was never bound. *)
Definition getattr (a : option Z) : outcome Z :=
  match a with
  | Some v => Ok v
  | None => Raise AttributeError
  end.

Definition get_public (self : RSAKey) : outcome (Z * Z) :=
  p <- getattr (public self) ;; Ok (p, composite self).

Definition get_private (self : RSAKey) : outcome (Z * Z) :=
  p <- getattr (private self) ;; Ok (p, composite self).

Definition set_public (self : RSAKey) (pub : Z * Z) : RSAKey :=
  {| pubkey := pubkey self; privkey := privkey self;
     composite := snd pub; keys := keys self;
     public := Some (fst pub); private := private self |}.

Definition set_private (self : RSAKey) (priv : Z * Z) : RSAKey :=
  {| pubkey := pubkey self; privkey := privkey self;
     composite := snd priv; keys := keys self;
     public := public self; private := Some (fst priv) |}.

Definition copy (self : RSAKey) : RSAKey := init_keys (keys self).

(** *** Primality *)

(** [while not d & 1: s, d = s + 1, d >> 1] *)
Fixpoint split_twos (fuel : nat) (s d : Z) : outcome (Z * Z) :=
  match fuel with
  | O => OutOfFuel
  | S f =>
      if Z.land d 1 =? 0 then split_twos f (s + 1) (Z.shiftr d 1)
      else Ok (s, d)
  end.

(** The inner [for _ in range(s - 1)] of a round: [true] when it leaves
    through [break], [false] when it returns [False], the [else] of the
    loop included. *)
Fixpoint square_loop (iters : nat) (n n1 x : Z) : bool :=
  match iters with
  | O => false
  | S i =>
      let x' := x ^ 2 mod n in
      if x' =? 1 then false
      else if x' =? n1 then true
      else square_loop i n n1 x'
  end.

(** The base of one round. *)
Definition draw_base (n1 : Z) : rnd Z :=
  r <~ randbelow n1 ;; rret (r + 2).

(** One round on the base [a]: [true] when the round passes. *)
Definition round_passes (n n1 s d a : Z) : outcome bool :=
  x <- py_pow a d n ;;
  Ok (if (x =? 1) || (x =? n1) then true
      else square_loop (Z.to_nat (s - 1)) n n1 x).

(** [for _ in range(k)] *)
Fixpoint rounds (k : nat) (n n1 s d : Z) : rnd bool :=
  match k with
  | O => rret true
  | S k' =>
      a <~ draw_base n1 ;;
      ok <~ lift (round_passes n n1 s d a) ;;
      if ok then rounds k' n n1 s d else rret false
  end.

Definition _isprime (fuel : nat) (n k : Z) : rnd bool :=
  if n <=? 3 then rret ((n =? 2) || (n =? 3))
  else
    let n1 := n - 1 in
    sd <~ lift (split_twos fuel 0 n1) ;;
    let '(s, d) := sd in
    _ <~ lift (py_assert ((2 ^ s * d =? n1) && negb (Z.land d 1 =? 0))) ;;
    rounds (Z.to_nat k) n n1 s d.

(** [while not self._isprime(prime): prime = secrets.randbelow(num) + 1] *)
Fixpoint randprime_loop (fuel : nat) (num prime : Z) : rnd Z :=
  match fuel with
  | O => fun _ _ => OutOfFuel
  | S f =>
      p <~ _isprime (S f) prime 30 ;;
      if p then rret prime
      else
        r <~ randbelow num ;;
        randprime_loop f num (r + 1)
  end.

Definition _randprime (fuel : nat) (num : Z) : rnd Z :=
  randprime_loop fuel num 1.

(** *** The modular inverse *)

(** [while b: a, q, b = b, a // b, a % b; x, lx = lx - q * x, x],
    answering the final [lx]. *)
Fixpoint multinv_loop (fuel : nat) (x lx a b : Z) : outcome Z :=
  match fuel with
  | O => OutOfFuel
  | S f =>
      if b =? 0 then Ok lx
      else
        let q := a / b in
        multinv_loop f (lx - q * x) x b (a mod b)
  end.

Definition _multinv (fuel : nat) (mod_ var : Z) : outcome Z :=
  lx <- multinv_loop fuel 0 1 mod_ var ;;
  r <- py_floordiv (1 - lx * mod_) var ;;
  let result := if r <? 0 then r + mod_ else r in
  if (0 <=? result) && (result <? mod_) then
    vr <- py_mod (var * result) mod_ ;;
    _ <- py_assert (vr =? 1) ;;
    Ok result
  else Raise AssertionError.

(** *** Key generation *)

(** [while 1: private = secrets.randbelow(totient) + 1; ...] *)
Fixpoint private_loop (fuel : nat) (totient : Z) : rnd Z :=
  match fuel with
  | O => fun _ _ => OutOfFuel
  | S f =>
      r <~ randbelow totient ;;
      let private := r + 1 in
      if Z.gcd private totient =? 1 then rret private
      else private_loop f totient
  end.

Definition probe : Z := 1234567.

Definition generate_keys (fuel : nat) (key_length : Z) : rnd (Z * Z * Z) :=
  prime1 <~ _randprime fuel key_length ;;
  prime2 <~ _randprime fuel key_length ;;
  let composite := prime1 * prime2 in
  let totient := (prime1 - 1) * (prime2 - 1) in
  private <~ private_loop fuel totient ;;
  public <~ lift (_multinv fuel totient private) ;;
  pp <~ lift (py_mod (public * private) totient) ;;
  _ <~ lift (py_assert ((pp =? Z.gcd public totient)
                        && (Z.gcd public totient =? Z.gcd private totient)
                        && (Z.gcd private totient =? 1))) ;;
  c <~ lift (py_pow probe public composite) ;;
  m <~ lift (py_pow c private composite) ;;
  _ <~ lift (py_assert (m =? probe)) ;;
  rret (public, private, composite).

(** [RSAKey(key_length)] *)
Definition init_generate (fuel : nat) (key_length : Z) : rnd RSAKey :=
  ks <~ generate_keys fuel key_length ;; rret (init_keys ks).

(** *** The block codec *)

Section MathLog.

Variable ilog : Z -> Z.

(** The loop body of [encrypt] and [encrypt_generator] once [chunk] is
    cut out of the data. *)
Definition encrypt_chunk (self : RSAKey) (chunksize outchunk : Z)
    (chunk : bytes) : outcome bytes :=
  let chunk := chunk ++ zeros (chunksize - len chunk) in
  plain <- int16 (hexlify chunk) ;;
  coded <- py_pow plain (pubkey self) (composite self) ;;
  unhexlify (format_hex (outchunk * 2) coded).

Definition encrypt_block (self : RSAKey) (chunksize outchunk : Z)
    (data : bytes) (start : Z) : outcome bytes :=
  encrypt_chunk self chunksize outchunk (slice data start (start + chunksize)).

Definition encrypt (self : RSAKey) (data : pydata) : outcome bytes :=
  chunksize <- log256 ilog (composite self) ;;
  let outchunk := chunksize + 1 in
  let data := to_bytes data in
  starts <- py_range (len data) chunksize ;;
  result <- sequence (map (encrypt_block self chunksize outchunk data) starts) ;;
  Ok (List.concat result).

(** The loop body of [decrypt] once [bcoded] is cut out of the data;
    [decrypt_generator] strips the chunk as well. *)
Definition decrypt_chunk (self : RSAKey) (chunksize outchunk : Z)
    (bcoded : bytes) : outcome bytes :=
  coded <- int16 (hexlify bcoded) ;;
  plain <- py_pow coded (privkey self) (composite self) ;;
  unhexlify (format_hex (chunksize * 2) plain).

Definition decrypt_block (self : RSAKey) (chunksize outchunk : Z)
    (data : bytes) (start : Z) : outcome bytes :=
  decrypt_chunk self chunksize outchunk (slice data start (start + outchunk)).

Definition decrypt (self : RSAKey) (data : bytes) : outcome bytes :=
  chunksize <- log256 ilog (composite self) ;;
  let outchunk := chunksize + 1 in
  starts <- py_range (len data) outchunk ;;
  result <- sequence (map (decrypt_block self chunksize outchunk data) starts) ;;
  Ok (rstrip_x00 (List.concat result)).

(** *** The generators *)

(** A generator object: not yet started, suspended at its [yield] with
    the rest of the [range] to walk, or finished.  It holds the key object
    and the data, and reads the key's attributes at every step. *)
Inductive gen_state : Type :=
| GenStart
| GenLoop (chunksize outchunk : Z) (starts : list Z)
| GenDone.

(** What [next(g)] does: [Ok (Some (block, st))] yields [block] and
    suspends as [st], [Ok None] is [StopIteration]. *)
Definition gen_step : Type := outcome (option (bytes * gen_state)).

Definition gen_resume (body : Z -> Z -> Z -> outcome bytes)
    (chunksize outchunk : Z) (starts : list Z) : gen_step :=
  match starts with
  | [] => Ok None
  | start :: rest =>
      block <- body chunksize outchunk start ;;
      Ok (Some (block, GenLoop chunksize outchunk rest))
  end.

Definition encrypt_generator_next (self : RSAKey) (data : pydata)
    (st : gen_state) : gen_step :=
  let data := to_bytes data in
  let body := fun cs oc start => encrypt_block self cs oc data start in
  match st with
  | GenStart =>
      chunksize <- log256 ilog (composite self) ;;
      let outchunk := chunksize + 1 in
      starts <- py_range (len data) chunksize ;;
      gen_resume body chunksize outchunk starts
  | GenLoop chunksize outchunk starts =>
      gen_resume body chunksize outchunk starts
  | GenDone => Ok None
  end.

(** [decrypt_generator] also binds [num = int(len(data) / outchunk)] and
    never reads it; [outchunk] is at least [1] there. *)
Definition decrypt_generator_next (self : RSAKey) (data : bytes)
    (st : gen_state) : gen_step :=
  let body := fun cs oc start =>
    omap rstrip_x00 (decrypt_block self cs oc data start) in
  match st with
  | GenStart =>
      chunksize <- log256 ilog (composite self) ;;
      let outchunk := chunksize + 1 in
      starts <- py_range (len data) outchunk ;;
      gen_resume body chunksize outchunk starts
  | GenLoop chunksize outchunk starts =>
      gen_resume body chunksize outchunk starts
  | GenDone => Ok None
  end.

End MathLog.

(** [list(g)]: every block the generator yields, by at most [fuel] calls
    of [next]. *)
Fixpoint drain (fuel : nat) (next : gen_state -> gen_step) (st : gen_state)
    : outcome (list bytes) :=
  match fuel with
  | O => OutOfFuel
  | S f =>
      step <- next st ;;
      match step with
      | Some (block, st') => r <- drain f next st' ;; Ok (block :: r)
      | None => Ok []
      end
  end.

End RSA.

(* ------------------------------------------------------------------ *)
(** ** VigenereKey *)

Module Vigenere.

Record VigenereKey : Type := mkVigenereKey { key : bytes }.

(** [VigenereKey(key=k)]:
    [key.hex().encode() if isinstance(key, bytes) else key.encode()] *)
Definition init_key (k : pydata) : VigenereKey :=
  {| key := match k with
            | PyBytes b => hexlify b
            | PyStr s => encode s
            end |}.

Definition generate_key (key_length : Z) : rnd bytes :=
  if key_length <? 0 then lift (Raise ValueError)
  else urandom_bytes (Z.to_nat key_length).

(** [VigenereKey(key_length)] *)
Definition init_generate (key_length : Z) : rnd VigenereKey :=
  k <~ generate_key key_length ;; rret (init_key (PyBytes k)).

Definition copy (self : VigenereKey) : VigenereKey :=
  init_key (PyBytes (key self)).

(** [data[i]] *)
Definition getitem (data : bytes) (i : nat) : outcome Z :=
  match nth_error data i with
  | Some b => Ok (byte_val b)
  | None => Raise IndexError
  end.

(** The [for i in range(len(data))] of [encrypt] and [decrypt], with
    [op] the addition or the subtraction. *)
Definition combine_with (op : Z -> Z -> Z) (self : VigenereKey)
    (data : bytes) : outcome (list Z) :=
  sequence
    (map (fun i =>
            char <- getitem data i ;;
            key_char <- getitem (key self) i ;;
            Ok (op char key_char mod 256))
         (seq 0 (List.length data))).

(** [bytes(chars)] *)
Definition bytes_of_ints (chars : list Z) : bytes := map byte_of chars.

Definition encrypt (self : VigenereKey) (data : pydata) : outcome string :=
  _ <- py_assert (pylen data <=? len (key self)) ;;
  let data := to_bytes data in
  chars <- combine_with Z.add self data ;;
  Ok (string_of_list_byte (hexlify (bytes_of_ints chars))).

Definition is_space (c : byte) : bool :=
  let v := byte_val c in
  (v =? 32) || ((9 <=? v) && (v <=? 13)).

(** [bytes.fromhex(data.decode())] on the encoded text: pairs of digits,
    white space allowed between the pairs; [None] when it raises, as it
    does on any character outside ASCII. *)
Fixpoint fromhex (s : bytes) : option bytes :=
  match s with
  | [] => Some []
  | c :: rest =>
      if is_space c then fromhex rest
      else
        match hex_digit_val c, rest with
        | Some a, l :: rest' =>
            match hex_digit_val l with
            | Some b => option_map (cons (byte_of (16 * a + b))) (fromhex rest')
            | None => None
            end
        | _, _ => None
        end
  end.

Definition decrypt (self : VigenereKey) (data : pydata) : outcome bytes :=
  let data := to_bytes data in
  let data := match fromhex data with
              | Some raw => raw
              | None => data
              end in
  _ <- py_assert (len data <=? len (key self)) ;;
  chars <- combine_with Z.sub self data ;;
  Ok (bytes_of_ints chars).

End Vigenere.

(* ------------------------------------------------------------------ *)
(** ** Big-endian numbers and blocks, for the statements below *)

(** The number [data] writes, most significant byte first. *)
Definition be_val (data : bytes) : Z :=
  fold_left (fun acc b => 256 * acc + byte_val b) data 0.

(** The [n] low bytes of [v], most significant first. *)
Fixpoint be_bytes (n : nat) (v : Z) : bytes :=
  match n with
  | O => []
  | S n' => byte_of ((v / 256 ^ Z.of_nat n') mod 256) :: be_bytes n' v
  end.

(** [data] cut into consecutive pieces of [step] items, the last one
    shorter when the length is no multiple of [step]. *)
Fixpoint chunks {A : Type} (fuel step : nat) (data : list A) : list (list A) :=
  match fuel with
  | O => []
  | S f =>
      match data with
      | [] => []
      | _ => firstn step data :: chunks f step (skipn step data)
      end
  end.

(** [data] with its last block, when that one is shorter than [width],
    filled with null bytes on the left. *)
Definition left_padded (width : Z) (data : bytes) : bytes :=
  let r := len data mod width in
  let full := Z.to_nat (len data - r) in
  if r =? 0 then data
  else firstn full data ++ zeros (width - r) ++ skipn full data.

(** A piece of the plaintext filled with null bytes to [chunksize]. *)
Definition padded (chunksize : Z) (chunk : bytes) : bytes :=
  chunk ++ zeros (chunksize - len chunk).

(** The block [encrypt] writes for a piece of the plaintext. *)
Definition encoded_block (self : RSA.RSAKey) (chunksize : Z) (chunk : bytes)
    : bytes :=
  be_bytes (Z.to_nat (chunksize + 1))
           (be_val (padded chunksize chunk) ^ RSA.pubkey self
            mod RSA.composite self).

(* ------------------------------------------------------------------ *)
(** ** A modulus on which the logarithm rounds up *)

(** [256 ^ 7 - 29 = 93767917 * 768467471] lies below [256 ^ 7], and the
    floor of its logarithm in base [256] is [6]; in CPython (IEEE double
    precision) [math.log(72057594037927907, 256)] is [7.0], the quotient of
    the two rounded logarithms, so that [int(math.log(n, 256))] is [7]
    there.  [log_rounding_up] is a [math.log] with that value on this modulus
    and the exact one everywhere else. *)
Definition rounding_modulus : Z := 256 ^ 7 - 29.

Definition log_rounding_up (n : Z) : Z :=
  if n =? rounding_modulus then 7 else floor_log256 n.

(** [n] has no divisor among [d], [d + 1], ..., [d + count - 1]. *)
Fixpoint no_divisor_from (count : nat) (d n : Z) : bool :=
  match count with
  | O => true
  | S c => if n mod d =? 0 then false else no_divisor_from c (d + 1) n
  end.

(* ------------------------------------------------------------------ *)
(** ** Ways a run can end *)

(** The run is still going after any number of loop iterations, whatever
    the draws. *)
Definition never_ends {A : Type} (run : nat -> rnd A) : Prop :=
  forall (fuel : nat) (t : tape) (pos : nat), run fuel t pos = OutOfFuel.

(** The run gives no value, whatever the fuel and the draws. *)
Definition never_returns {A : Type} (run : nat -> rnd A) : Prop :=
  forall (fuel : nat) (t : tape) (pos : nat),
    match run fuel t pos with
    | Ok _ => False
    | _ => True
    end.

(* ================================================================== *)
(** * Properties *)

#[local] Open Scope Z_scope.

(** A conjunction of closed facts, each settled by running the code. *)
Ltac split_all := repeat match goal with |- _ /\ _ => split end.
Ltac by_running :=
  first [vm_compute; reflexivity | vm_compute; discriminate].

(* ------------------------------------------------------------------ *)
(** ** Outcomes *)

Lemma sequence_map_ok {A B : Type} (f : A -> outcome B) (g : A -> B)
    (l : list A) :
  (forall a, In a l -> f a = Ok (g a)) ->
  sequence (map f l) = Ok (map g l).
Proof.
  induction l as [| a l IH]; intros Hf; simpl.
  - reflexivity.
  - rewrite (Hf a (or_introl eq_refl)); simpl.
    rewrite IH by (intros; apply Hf; right; assumption).
    reflexivity.
Qed.

(* ------------------------------------------------------------------ *)
(** ** Bytes and hexadecimal text *)

Lemma byte_val_range (b : byte) : 0 <= byte_val b < 256.
Proof.
  unfold byte_val. pose proof (Byte.to_N_bounded b). lia.
Qed.

Lemma byte_of_val (b : byte) : byte_of (byte_val b) = b.
Proof.
  unfold byte_of, byte_val. rewrite N2Z.id, Byte.of_to_N. reflexivity.
Qed.

Lemma byte_val_of (z : Z) : 0 <= z < 256 -> byte_val (byte_of z) = z.
Proof.
  intros Hz. unfold byte_of, byte_val.
  destruct (Byte.of_N (Z.to_N z)) as [b |] eqn:E.
  - apply Byte.to_of_N in E. rewrite E. lia.
  - apply Byte.of_N_None_iff in E. lia.
Qed.

Lemma hex_digit_val_char (d : Z) :
  0 <= d < 16 -> hex_digit_val (hex_char d) = Some d.
Proof.
  intros Hd.
  assert (H : d = 0 \/ d = 1 \/ d = 2 \/ d = 3 \/ d = 4 \/ d = 5 \/ d = 6 \/
              d = 7 \/ d = 8 \/ d = 9 \/ d = 10 \/ d = 11 \/ d = 12 \/
              d = 13 \/ d = 14 \/ d = 15) by lia.
  repeat (destruct H as [H | H]; [subst d; reflexivity |]).
  subst d; reflexivity.
Qed.

Lemma length_be_digits (n : nat) (v : Z) : List.length (be_digits n v) = n.
Proof. induction n as [| n IH]; simpl; [reflexivity | rewrite IH; reflexivity]. Qed.

Lemma length_be_bytes (n : nat) (v : Z) : List.length (be_bytes n v) = n.
Proof. induction n as [| n IH]; simpl; [reflexivity | rewrite IH; reflexivity]. Qed.

Lemma byte_nibbles (w : Z) :
  16 * ((w / 16) mod 16) + w mod 16 = w mod 256.
Proof.
  pose proof (Z.div_mod w 16 ltac:(lia)).
  pose proof (Z.div_mod (w / 16) 16 ltac:(lia)).
  pose proof (Z.mod_pos_bound w 16 ltac:(lia)).
  pose proof (Z.mod_pos_bound (w / 16) 16 ltac:(lia)).
  apply Z.mod_unique with (q := w / 16 / 16); lia.
Qed.

(** [unhexlify] reads [2 * n] digits of [v] back as its [n] bytes. *)
Lemma unhexlify_be_digits (n : nat) (v : Z) :
  unhexlify (be_digits (2 * n) v) = Ok (be_bytes n v).
Proof.
  induction n as [| n IH]; [reflexivity |].
  replace (2 * S n)%nat with (S (S (2 * n))) by lia.
  cbn [be_digits unhexlify].
  rewrite !hex_digit_val_char by (apply Z.mod_pos_bound; lia).
  rewrite IH. cbn [bind be_bytes].
  replace (Z.of_nat (S (2 * n))) with (Z.of_nat (2 * n) + 1) by lia.
  rewrite Z.pow_add_r, Z.pow_1_r by lia.
  replace (Z.of_nat (2 * n)) with (2 * Z.of_nat n) by lia.
  rewrite Z.pow_mul_r by lia. change (16 ^ 2) with 256.
  rewrite <- Z.div_div by lia.
  rewrite byte_nibbles. reflexivity.
Qed.

Lemma hex_width_le (w v : Z) :
  1 <= w -> 0 <= v < 256 ^ w -> hex_width v <= 2 * w.
Proof.
  intros Hw Hv. unfold hex_width.
  destruct (v =? 0) eqn:E; [lia |].
  apply Z.eqb_neq in E.
  assert (Hlog : Z.log2 v < 8 * w).
  { apply Z.log2_lt_pow2; [lia |].
    replace (2 ^ (8 * w)) with (256 ^ w); [lia |].
    change 256 with (2 ^ 8). rewrite <- Z.pow_mul_r by lia. reflexivity. }
  pose proof (Z.log2_nonneg v).
  assert (Z.log2 v / 4 < 2 * w) by (apply Z.div_lt_upper_bound; lia).
  lia.
Qed.

(** A value that fits [w] bytes is written by ['%0<2w>x'] and read back
    by [unhexlify] as exactly [w] bytes. *)
Lemma unhexlify_format_hex (w v : Z) :
  1 <= w -> 0 <= v < 256 ^ w ->
  unhexlify (format_hex (w * 2) v) = Ok (be_bytes (Z.to_nat w) v).
Proof.
  intros Hw Hv. unfold format_hex.
  destruct (v <? 0) eqn:E; [lia |].
  pose proof (hex_width_le w v Hw Hv).
  rewrite Z.max_l by lia.
  replace (Z.to_nat (w * 2)) with (2 * Z.to_nat w)%nat by lia.
  apply unhexlify_be_digits.
Qed.

Lemma fold_be_val (data : bytes) (acc : Z) :
  fold_left (fun a b => 256 * a + byte_val b) data acc =
  acc * 256 ^ len data + be_val data.
Proof.
  unfold be_val, len. revert acc.
  induction data as [| b rest IH]; intros acc.
  - simpl. lia.
  - cbn [fold_left List.length]. rewrite IH, (IH (256 * 0 + byte_val b)).
    rewrite Nat2Z.inj_succ, Z.pow_succ_r by lia. lia.
Qed.

Lemma be_val_cons (b : byte) (rest : bytes) :
  be_val (b :: rest) = byte_val b * 256 ^ len rest + be_val rest.
Proof.
  unfold be_val at 1. cbn [fold_left]. rewrite fold_be_val. lia.
Qed.

Lemma be_val_app (l1 l2 : bytes) :
  be_val (l1 ++ l2) = be_val l1 * 256 ^ len l2 + be_val l2.
Proof.
  unfold be_val at 1. rewrite fold_left_app. fold (be_val l1).
  apply fold_be_val.
Qed.

Lemma be_val_range (data : bytes) : 0 <= be_val data < 256 ^ len data.
Proof.
  induction data as [| b rest IH].
  - unfold be_val, len; simpl. lia.
  - rewrite be_val_cons. pose proof (byte_val_range b).
    replace (len (b :: rest)) with (len rest + 1)
      by (unfold len; cbn [List.length]; lia).
    rewrite Z.pow_add_r, Z.pow_1_r by (unfold len; lia).
    nia.
Qed.

Lemma be_val_zeros (n : nat) : be_val (repeat x00 n) = 0.
Proof.
  induction n as [| n IH]; [reflexivity |].
  cbn [repeat]. rewrite be_val_cons, IH. reflexivity.
Qed.

Lemma int16_digits_hexlify (data : bytes) (acc : Z) :
  int16_digits acc (hexlify data) =
  Ok (fold_left (fun a b => 256 * a + byte_val b) data acc).
Proof.
  revert acc. induction data as [| b rest IH]; intros acc; [reflexivity |].
  pose proof (byte_val_range b) as Hb.
  cbn [hexlify int16_digits fold_left].
  rewrite hex_digit_val_char by (split; [apply Z.div_pos | apply Z.div_lt_upper_bound]; lia).
  rewrite hex_digit_val_char by (apply Z.mod_pos_bound; lia).
  rewrite IH. do 2 f_equal.
  pose proof (Z.div_mod (byte_val b) 16 ltac:(lia)). lia.
Qed.

(** [int(binascii.hexlify(data), 16)] is the big-endian value of a
    non-empty [data]. *)
Lemma int16_hexlify (data : bytes) :
  data <> [] -> int16 (hexlify data) = Ok (be_val data).
Proof.
  intros Hne. unfold int16.
  destruct data as [| b rest]; [contradiction |].
  cbn [hexlify]. change (hex_char (byte_val b / 16) :: hex_char (byte_val b mod 16) :: hexlify rest)
    with (hexlify (b :: rest)).
  apply int16_digits_hexlify.
Qed.

Lemma be_val_be_bytes (n : nat) (v : Z) :
  0 <= v -> be_val (be_bytes n v) = v mod 256 ^ Z.of_nat n.
Proof.
  intros Hv. induction n as [| n IH].
  - simpl. rewrite Z.mod_1_r. reflexivity.
  - cbn [be_bytes]. rewrite be_val_cons, IH.
    unfold len. rewrite length_be_bytes.
    rewrite byte_val_of by (apply Z.mod_pos_bound; lia).
    rewrite Nat2Z.inj_succ, Z.pow_succ_r by lia.
    set (B := 256 ^ Z.of_nat n).
    assert (HB : 0 < B) by (apply Z.pow_pos_nonneg; lia).
    rewrite Z.mul_comm with (n := 256).
    rewrite Z.rem_mul_r by lia. lia.
Qed.

Lemma be_bytes_add (n : nat) (a r : Z) :
  forall m : nat, (n <= m)%nat ->
    be_bytes n (a * 256 ^ Z.of_nat m + r) = be_bytes n r.
Proof.
  induction n as [| n IH]; intros m Hm; [reflexivity |].
  cbn [be_bytes]. rewrite IH by lia. f_equal. f_equal.
  assert (HB : 0 < 256 ^ Z.of_nat n) by (apply Z.pow_pos_nonneg; lia).
  replace (Z.of_nat m) with (Z.of_nat n + (Z.of_nat (m - S n) + 1)) by lia.
  rewrite Z.pow_add_r, Z.pow_add_r, Z.pow_1_r by lia.
  replace (a * (256 ^ Z.of_nat n * (256 ^ Z.of_nat (m - S n) * 256)) + r)
    with (a * 256 ^ Z.of_nat (m - S n) * 256 * 256 ^ Z.of_nat n + r) by ring.
  rewrite Z.div_add_l by lia.
  rewrite Z.add_comm, Z.mod_add by lia. reflexivity.
Qed.

Lemma be_bytes_be_val (data : bytes) :
  be_bytes (List.length data) (be_val data) = data.
Proof.
  induction data as [| b rest IH]; [reflexivity |].
  cbn [List.length be_bytes]. rewrite be_val_cons.
  pose proof (be_val_range rest) as Hr. pose proof (byte_val_range b) as Hb.
  unfold len in *.
  assert (HB : 0 < 256 ^ Z.of_nat (List.length rest))
    by (apply Z.pow_pos_nonneg; lia).
  rewrite be_bytes_add by lia. rewrite IH. f_equal.
  rewrite Z.div_add_l by lia. rewrite Z.div_small by lia.
  rewrite Z.add_0_r, Z.mod_small by lia. apply byte_of_val.
Qed.

(* ------------------------------------------------------------------ *)
(** ** Stripping and cutting *)

Lemma drop_x00_zeros (n : nat) (l : bytes) :
  drop_x00 (repeat x00 n ++ l) = drop_x00 l.
Proof. induction n as [| n IH]; [reflexivity | exact IH]. Qed.

Lemma rev_repeat_x00 (n : nat) : rev (repeat x00 n) = repeat x00 n.
Proof.
  induction n as [| n IH]; [reflexivity |].
  cbn [repeat rev]. rewrite IH. symmetry. apply repeat_cons.
Qed.

(** Stripping gives back data that do not end in a null byte, whatever
    the number of null bytes put after them. *)
Lemma rstrip_x00_padded (data : bytes) (n : nat) :
  ends_in_x00 data = false ->
  rstrip_x00 (data ++ repeat x00 n) = data.
Proof.
  unfold ends_in_x00, rstrip_x00. intros Hend.
  rewrite rev_app_distr, rev_repeat_x00, drop_x00_zeros.
  destruct (rev data) as [| b t] eqn:E.
  - apply (f_equal (@rev byte)) in E. rewrite rev_involutive in E.
    subst data. reflexivity.
  - cbn [drop_x00]. rewrite Hend. rewrite <- E. apply rev_involutive.
Qed.

Lemma range_from_shift {A : Type} (data : list A) (step : Z) (base : nat) :
  0 <= step ->
  forall (fuel : nat) (off : Z), 0 <= off ->
    map (fun s => slice data s (s + step))
        (range_from fuel (Z.of_nat base + off) (len data) step) =
    map (fun s => slice (skipn base data) s (s + step))
        (range_from fuel off (len (skipn base data)) step).
Proof.
  intros Hstep.
  assert (Hlen : len (skipn base data) = Z.max 0 (len data - Z.of_nat base)).
  { unfold len. rewrite length_skipn. lia. }
  induction fuel as [| f IH]; intros off Hoff; [reflexivity |].
  cbn [range_from].
  destruct (Z.of_nat base + off <? len data) eqn:E1;
    destruct (off <? len (skipn base data)) eqn:E2; try lia; [| reflexivity].
  cbn [map]. f_equal.
  - unfold slice. rewrite skipn_skipn. do 2 f_equal; lia.
  - rewrite <- Z.add_assoc. apply IH. lia.
Qed.

(** The slices a [for start in range(0, len(data), step)] cuts are the
    consecutive pieces of [data]. *)
Lemma slices_chunks {A : Type} (step : Z) :
  0 < step ->
  forall (fuel : nat) (data : list A),
    map (fun s => slice data s (s + step))
        (range_from fuel 0 (len data) step) =
    chunks fuel (Z.to_nat step) data.
Proof.
  intros Hstep. induction fuel as [| f IH]; intros data; [reflexivity |].
  cbn [range_from chunks].
  destruct data as [| a rest] eqn:Ed; [reflexivity |].
  rewrite <- Ed.
  assert (Hpos : (0 <? len data) = true).
  { subst data. unfold len. cbn [List.length]. apply Z.ltb_lt. lia. }
  rewrite Hpos. cbn [map]. f_equal.
  - unfold slice. rewrite Z.add_0_l, Z.sub_0_r. reflexivity.
  - rewrite <- IH.
    replace (0 + step) with (Z.of_nat (Z.to_nat step) + 0) by lia.
    apply range_from_shift; lia.
Qed.

Lemma chunks_nil {A : Type} (fuel step : nat) :
  chunks fuel step (@nil A) = [].
Proof. destruct fuel; reflexivity. Qed.

(** Blocks of [step] items put end to end are cut back into themselves,
    a shorter non-empty tail giving one more piece. *)
Lemma chunks_concat {A : Type} (step : nat) (tail : list A) :
  (0 < step)%nat -> (List.length tail <= step)%nat ->
  forall (blocks : list (list A)) (fuel : nat),
    (List.length blocks + List.length tail <= fuel)%nat ->
    Forall (fun b => List.length b = step) blocks ->
    chunks fuel step (List.concat blocks ++ tail) =
    blocks ++ match tail with [] => [] | _ => [tail] end.
Proof.
  intros Hstep Htail.
  induction blocks as [| b bs IH]; intros fuel Hfuel Hall.
  - cbn [List.concat app].
    destruct tail as [| a t]; [apply chunks_nil |].
    destruct fuel as [| f]; [simpl in Hfuel; lia |].
    cbn [chunks].
    rewrite firstn_all2 by exact Htail.
    rewrite skipn_all2 by exact Htail.
    rewrite chunks_nil. reflexivity.
  - destruct fuel as [| f]; [simpl in Hfuel; lia |].
    inversion Hall as [| ? ? Hb Hbs]; subst.
    cbn [List.concat chunks]. rewrite <- app_assoc.
    destruct b as [| a b']; [simpl in Hstep; lia |].
    cbn [app]. change (a :: b' ++ List.concat bs ++ tail)
      with ((a :: b') ++ List.concat bs ++ tail).
    rewrite firstn_app, skipn_app, Nat.sub_diag.
    rewrite firstn_all, skipn_all. cbn [firstn skipn app].
    rewrite app_nil_r. f_equal.
    apply IH; [simpl in Hfuel; lia | assumption].
Qed.

(** Data of [k] times [step] items are [k] full pieces. *)
Lemma full_chunks {A : Type} (step : nat) :
  (0 < step)%nat ->
  forall (k : nat) (data : list A),
    List.length data = (k * step)%nat ->
    List.concat (chunks k step data) = data /\
    Forall (fun b => List.length b = step) (chunks k step data) /\
    List.length (chunks k step data) = k.
Proof.
  intros Hstep. induction k as [| k IH]; intros data Hlen.
  - destruct data; [| simpl in Hlen; lia]. repeat split. constructor.
  - cbn [chunks]. destruct data as [| a rest] eqn:Ed; [simpl in Hlen; lia |].
    rewrite <- Ed in *. clear Ed.
    destruct (IH (skipn step data)) as (Hc & Hf & Hl).
    { rewrite length_skipn. lia. }
    cbn [List.concat List.length]. rewrite Hc, Hl, firstn_skipn.
    repeat split. constructor; [| exact Hf].
    rewrite length_firstn. lia.
Qed.

(** Cutting and filling each piece to [step] bytes only adds null bytes
    at the end. *)
Lemma concat_padded_chunks (step : nat) :
  (0 < step)%nat ->
  forall (fuel : nat) (data : bytes),
    (List.length data <= fuel)%nat ->
    exists k : nat,
      List.concat (map (padded (Z.of_nat step)) (chunks fuel step data)) =
      data ++ repeat x00 k.
Proof.
  intros Hstep. induction fuel as [| f IH]; intros data Hf.
  - destruct data; [| simpl in Hf; lia]. exists 0%nat. reflexivity.
  - cbn [chunks]. destruct data as [| a rest] eqn:Ed.
    + exists 0%nat. reflexivity.
    + rewrite <- Ed.
      assert (Hlen : (0 < List.length data)%nat) by (subst data; simpl; lia).
      assert (Hf' : (List.length data <= S f)%nat) by (subst data; exact Hf).
      clear Ed. cbn [map List.concat].
      destruct (Nat.le_gt_cases step (List.length data)) as [Hle | Hgt].
      * destruct (IH (skipn step data)) as [k Hk].
        { rewrite length_skipn. lia. }
        exists k. rewrite Hk. unfold padded, zeros, len.
        rewrite length_firstn, Nat.min_l by exact Hle.
        replace (Z.to_nat (Z.of_nat step - Z.of_nat step)) with 0%nat by lia.
        cbn [repeat]. rewrite app_nil_r, app_assoc, firstn_skipn. reflexivity.
      * rewrite firstn_all2 by lia. rewrite skipn_all2 by lia.
        rewrite chunks_nil. cbn [map List.concat]. rewrite app_nil_r.
        eexists. unfold padded, zeros. reflexivity.
Qed.

Lemma chunks_lengths {A : Type} (step : nat) :
  (0 < step)%nat ->
  forall (fuel : nat) (data : list A),
    Forall (fun c => (0 < List.length c <= step)%nat) (chunks fuel step data).
Proof.
  intros Hstep. induction fuel as [| f IH]; intros data; [constructor |].
  cbn [chunks]. destruct data as [| a rest] eqn:Ed; [constructor |].
  rewrite <- Ed. constructor; [| apply IH].
  rewrite length_firstn. subst data. cbn [List.length]. lia.
Qed.

(** The number of pieces is the length divided by [step], rounded up. *)
Lemma length_chunks {A : Type} (step : nat) :
  (0 < step)%nat ->
  forall (fuel : nat) (data : list A),
    (List.length data <= fuel)%nat ->
    Z.of_nat (List.length (chunks fuel step data)) =
    (len data + Z.of_nat step - 1) / Z.of_nat step.
Proof.
  intros Hstep. induction fuel as [| f IH]; intros data Hf.
  - destruct data; [| simpl in Hf; lia]. unfold len. cbn [chunks List.length].
    symmetry. apply Z.div_small. lia.
  - cbn [chunks]. destruct data as [| a rest] eqn:Ed.
    + unfold len. cbn [List.length]. symmetry. apply Z.div_small. lia.
    + rewrite <- Ed.
      assert (Hlen : (0 < List.length data)%nat) by (subst data; simpl; lia).
      assert (Hf' : (List.length data <= S f)%nat) by (subst data; exact Hf).
      clear Ed. cbn [List.length]. rewrite Nat2Z.inj_succ, IH
        by (rewrite length_skipn; lia).
      unfold len. rewrite length_skipn.
      destruct (Nat.le_gt_cases step (List.length data)) as [Hle | Hgt].
      * replace (Z.of_nat (List.length data) + Z.of_nat step - 1)
          with (Z.of_nat (List.length data - step) + Z.of_nat step - 1
                + 1 * Z.of_nat step) by lia.
        rewrite Z.div_add by lia. lia.
      * replace (List.length data - step)%nat with 0%nat by lia.
        rewrite (Z.div_small (Z.of_nat 0 + _ - 1)) by lia.
        replace (Z.of_nat (List.length data) + Z.of_nat step - 1)
          with (Z.of_nat (List.length data) - 1 + 1 * Z.of_nat step) by lia.
        rewrite Z.div_add by lia. rewrite Z.div_small by lia. lia.
Qed.

Lemma length_concat_uniform {A : Type} (n : nat) (blocks : list (list A)) :
  Forall (fun b => List.length b = n) blocks ->
  List.length (List.concat blocks) = (List.length blocks * n)%nat.
Proof.
  induction 1 as [| b bs Hb _ IH]; [reflexivity |].
  cbn [List.concat List.length]. rewrite length_app, IH, Hb. lia.
Qed.

(* ------------------------------------------------------------------ *)
(** ** Arithmetic of the cipher *)

(** [floor (log256 n)] brackets [n] between two powers of [256]. *)
Lemma floor_log256_spec (n : Z) :
  256 <= n ->
  1 <= floor_log256 n /\
  256 ^ floor_log256 n <= n < 256 ^ (floor_log256 n + 1).
Proof.
  intros Hn. unfold floor_log256.
  pose proof (Z.log2_spec n ltac:(lia)) as [Hlo Hhi].
  assert (H8 : 8 <= Z.log2 n).
  { apply Z.log2_le_pow2; [lia | simpl; lia]. }
  pose proof (Z.div_mod (Z.log2 n) 8 ltac:(lia)) as Hdm.
  pose proof (Z.mod_pos_bound (Z.log2 n) 8 ltac:(lia)) as Hmod.
  set (L := Z.log2 n / 8) in *.
  assert (HL : 1 <= L) by lia.
  split; [exact HL |].
  change 256 with (2 ^ 8). rewrite <- !Z.pow_mul_r by lia.
  split.
  - apply Z.le_trans with (2 ^ Z.log2 n); [| exact Hlo].
    apply Z.pow_le_mono_r; lia.
  - apply Z.lt_le_trans with (2 ^ Z.succ (Z.log2 n)); [exact Hhi |].
    apply Z.pow_le_mono_r; lia.
Qed.

(** Where the floating-point computation is exact, the chunk size is
    [floor (log256 n)]. *)
Lemma log256_spec (ilog : Z -> Z) (n : Z) :
  256 <= n -> exact_at ilog n ->
  log256 ilog n = Ok (floor_log256 n) /\
  1 <= floor_log256 n /\
  256 ^ floor_log256 n <= n < 256 ^ (floor_log256 n + 1).
Proof.
  intros Hn Hex. split; [| apply floor_log256_spec; exact Hn].
  unfold log256. destruct (n <=? 0) eqn:E; [lia |].
  rewrite Hex. reflexivity.
Qed.

Lemma fermat_exponent (p m j : Z) :
  Z.prime p -> 0 <= j -> m ^ (1 + (p - 1) * j) mod p = m mod p.
Proof.
  intros Hp Hj. pose proof (Z.prime_ge_2 p Hp) as Hp2.
  rewrite Z.pow_add_r, Z.pow_1_r by nia.
  destruct (Z.eq_dec (m mod p) 0) as [H0 | Hnz].
  - rewrite <- Z.mul_mod_idemp_l, H0 by lia.
    rewrite Z.mul_0_l. apply Z.mod_0_l. lia.
  - rewrite Z.pow_mul_r by lia.
    rewrite <- Z.mul_mod_idemp_r by lia.
    rewrite <- Z.mod_pow_l, Z.fermat_nz by assumption.
    rewrite Z.pow_1_l by lia. rewrite Z.mod_1_l by lia.
    rewrite Z.mul_1_r. reflexivity.
Qed.

Lemma divide_coprime_product (p q a : Z) :
  Z.gcd p q = 1 -> (p | a) -> (q | a) -> (p * q | a).
Proof.
  intros Hg [k Hk] Hq. subst a.
  assert (Hqk : (q | k)).
  { apply Z.gauss with (m := p); [rewrite Z.mul_comm; exact Hq |].
    rewrite Z.gcd_comm; exact Hg. }
  destruct Hqk as [j Hj]. subst k. exists j. ring.
Qed.

(** Raising to [e] and then to [d] modulo a product of two distinct
    primes gives back every residue. *)
Lemma rsa_identity (p q e d m : Z) :
  Z.prime p -> Z.prime q -> p <> q ->
  0 <= e -> 0 <= d ->
  (e * d) mod ((p - 1) * (q - 1)) = 1 ->
  0 <= m < p * q ->
  (m ^ e mod (p * q)) ^ d mod (p * q) = m.
Proof.
  intros Hp Hq Hne He Hd Hed Hm.
  pose proof (Z.prime_ge_2 p Hp) as Hp2.
  pose proof (Z.prime_ge_2 q Hq) as Hq2.
  rewrite Z.mod_pow_l, <- Z.pow_mul_r by lia.
  set (t := (p - 1) * (q - 1)) in *.
  assert (Ht : 0 < t) by (unfold t; nia).
  pose proof (Z.div_mod (e * d) t ltac:(lia)) as Hdm. rewrite Hed in Hdm.
  assert (Hk : 0 <= e * d / t) by (apply Z.div_pos; nia).
  set (k := e * d / t) in *.
  assert (Hmodp : m ^ (e * d) mod p = m mod p).
  { replace (e * d) with (1 + (p - 1) * ((q - 1) * k)) by (unfold t in Hdm; lia).
    apply fermat_exponent; [assumption | nia]. }
  assert (Hmodq : m ^ (e * d) mod q = m mod q).
  { replace (e * d) with (1 + (q - 1) * ((p - 1) * k)) by (unfold t in Hdm; lia).
    apply fermat_exponent; [assumption | nia]. }
  assert (Hdiv : (p * q | m ^ (e * d) - m)).
  { apply divide_coprime_product.
    - apply Z.coprime_prime_l; [assumption |].
      intros Hpq. apply Hne. apply Z.divide_prime_prime; assumption.
    - apply Z.mod_divide; [lia |].
      rewrite Zminus_mod, Hmodp, Z.sub_diag. apply Z.mod_0_l. lia.
    - apply Z.mod_divide; [lia |].
      rewrite Zminus_mod, Hmodq, Z.sub_diag. apply Z.mod_0_l. lia. }
  destruct Hdiv as [j Hj].
  replace (m ^ (e * d)) with (m + j * (p * q)) by lia.
  rewrite Z.mod_add by nia. apply Z.mod_small. exact Hm.
Qed.

(** *** Primes by trial division *)

Lemma no_divisor_from_sound (count : nat) :
  forall d n : Z,
    0 < d -> no_divisor_from count d n = true ->
    forall k : Z, d <= k < d + Z.of_nat count -> ~ (k | n).
Proof.
  induction count as [| c IH]; intros d n Hd Hrun k Hk; [lia |].
  cbn [no_divisor_from] in Hrun.
  destruct (n mod d =? 0) eqn:E; [discriminate |].
  apply Z.eqb_neq in E.
  destruct (Z.eq_dec k d) as [-> | Hne].
  - intros Hdiv. apply E. apply Z.mod_divide; [lia | exact Hdiv].
  - apply (IH (d + 1) n); [lia | exact Hrun | lia].
Qed.

(** A number below [(b + 1) ^ 2] with no divisor from [2] to [b] is
    prime. *)
Lemma prime_by_trial_division (b n : Z) :
  1 <= b -> 1 < n -> n < (b + 1) * (b + 1) ->
  no_divisor_from (Z.to_nat (b - 1)) 2 n = true ->
  Z.prime n.
Proof.
  intros Hb Hn Hsq Hrun. split; [exact Hn |].
  intros m Hm Hdiv.
  pose proof (no_divisor_from_sound _ 2 n ltac:(lia) Hrun) as Hnone.
  rewrite Z2Nat.id in Hnone by lia.
  destruct (Z_le_gt_dec m b) as [Hle | Hgt].
  - apply (Hnone m); [lia | exact Hdiv].
  - destruct Hdiv as [k Hk].
    assert (Hk1 : 1 < k) by nia.
    assert (Hkb : k <= b) by nia.
    apply (Hnone k); [lia |]. exists m. lia.
Qed.

(* ------------------------------------------------------------------ *)
(** ** The key container *)

Module RSAFacts.
Import RSA.

(** C8.  [get_public] and [get_private] read the attributes [public] and
    [private], which [__init__] never binds: on every imported container,
    and on every container key generation returns, both raise
    [AttributeError] instead of answering the pair. *)
Theorem getters_raise_on_fresh_container :
  (forall ks : Z * Z * Z,
      get_public (init_keys ks) = Raise AttributeError /\
      get_private (init_keys ks) = Raise AttributeError) /\
  (forall (fuel : nat) (key_length : Z) (t : tape) (pos : nat),
      match init_generate fuel key_length t pos with
      | Ok (k, _) =>
          get_public k = Raise AttributeError /\
          get_private k = Raise AttributeError
      | _ => True
      end) /\
  get_public (init_keys (173, 5, 323)) = Raise AttributeError.
Proof.
  assert (Himp : forall ks : Z * Z * Z,
             get_public (init_keys ks) = Raise AttributeError /\
             get_private (init_keys ks) = Raise AttributeError).
  { intros [[pub priv] comp]. split; reflexivity. }
  split; [exact Himp | split; [| reflexivity]].
  intros fuel key_length t pos.
  unfold init_generate, rbind.
  destruct (generate_keys fuel key_length t pos) as [[ks pos'] | e | ]; simpl;
    [apply Himp | exact I | exact I].
Qed.

(** [set_public] leaves [pubkey] and [privkey] as they were. *)
Lemma set_public_frame (self : RSAKey) (pub : Z * Z) :
  pubkey (set_public self pub) = pubkey self /\
  privkey (set_public self pub) = privkey self /\
  private (set_public self pub) = private self /\
  composite (set_public self pub) = snd pub.
Proof. repeat split. Qed.

(** C4.  After [set_public (e, n)] the private exponent is unchanged, but
    [encrypt] keeps raising to the old [pubkey]: it encrypts as the
    container with the old exponent and the new modulus does.  On the key
    [(173, 5, 323)] with [(7, 323)] installed, the chunk [2] is sent to
    [2 ^ 173 mod 323 = 15], not to [2 ^ 7 mod 323 = 128]. *)
Theorem set_public_not_used_by_encrypt :
  (forall (self : RSAKey) (e n : Z) (data : pydata),
      privkey (set_public self (e, n)) = privkey self /\
      forall ilog : Z -> Z,
        encrypt ilog (set_public self (e, n)) data =
        encrypt ilog (init_keys (pubkey self, privkey self, n)) data) /\
  encrypt floor_log256 (set_public (init_keys (173, 5, 323)) (7, 323))
          (PyBytes [x02])
    = Ok [x00; x0f] /\
  py_pow 2 7 323 = Ok 128 /\
  py_pow 2 173 323 = Ok 15.
Proof.
  split; [| repeat split; vm_compute; reflexivity].
  intros self e n data. split; [reflexivity | intros ilog; reflexivity].
Qed.

(** *** Primality *)

(** With enough fuel the loop that halves [d] ends, on the odd part of
    [d] and the number of halvings. *)
Lemma split_twos_enough (fuel : nat) :
  forall s d : Z,
    0 < d < 2 ^ Z.of_nat fuel ->
    exists s' d' : Z,
      split_twos fuel s d = Ok (s', d') /\
      s <= s' /\ 0 < d' /\ 2 ^ (s' - s) * d' = d /\ Z.land d' 1 <> 0.
Proof.
  induction fuel as [| f IH]; intros s d Hd.
  - simpl in Hd. lia.
  - cbn [split_twos].
    assert (Hland : Z.land d 1 = d mod 2)
      by (apply (Z.land_ones d 1); lia).
    destruct (Z.land d 1 =? 0) eqn:E.
    + apply Z.eqb_eq in E.
      assert (Hhalf : Z.shiftr d 1 = d / 2)
        by (apply (Z.shiftr_div_pow2 d 1); lia).
      pose proof (Z.div_mod d 2 ltac:(lia)) as Hdm.
      rewrite Nat2Z.inj_succ, Z.pow_succ_r in Hd by lia.
      destruct (IH (s + 1) (Z.shiftr d 1)) as (s' & d' & Hrun & Hs & Hd' & Hprod & Hodd);
        [lia |].
      exists s', d'. repeat split; try assumption; try lia.
      replace (s' - s) with (Z.succ (s' - (s + 1))) by lia.
      rewrite Z.pow_succ_r by lia. lia.
    + apply Z.eqb_neq in E.
      exists s, d. rewrite Z.sub_diag. repeat split; try lia; assumption.
Qed.

Lemma square_loop_zero (iters : nat) (n : Z) :
  3 < n -> square_loop iters n (n - 1) 0 = false.
Proof.
  intros Hn. induction iters as [| i IH]; [reflexivity |].
  cbn [square_loop]. rewrite Z.pow_0_l, Z.mod_0_l by lia.
  destruct (0 =? 1) eqn:E1; [reflexivity |].
  destruct (0 =? n - 1) eqn:E2; [lia | exact IH].
Qed.

(** Every base lies in [2, n1 + 1], that is in [2, n]. *)
Lemma draw_base_range (n1 : Z) (t : tape) (pos : nat) (a : Z) (pos' : nat) :
  draw_base n1 t pos = Ok (a, pos') -> 2 <= a <= n1 + 1.
Proof.
  unfold draw_base, rbind, randbelow, rret.
  destruct (n1 <=? 0) eqn:E; [discriminate |].
  intros H. injection H as H _. subst a.
  pose proof (Z.mod_pos_bound (t pos) n1 ltac:(lia)). lia.
Qed.

(** C3.  The base of a round is [randbelow (n - 1) + 2], which ranges
    over [2, n] and not over [2, n - 1): for every [n > 3] the draw [n - 2]
    gives the base [n], outside the interval.  The round then computes
    [pow (n, d, n) = 0] and the test answers [False], for a prime [n]
    too. *)
Theorem isprime_base_out_of_range :
  forall (n k : Z) (fuel pos : nat),
    3 < n -> 0 < k -> n < 2 ^ Z.of_nat fuel ->
    let t : tape := fun _ => n - 2 in
    draw_base (n - 1) t pos = Ok (n, S pos) /\
    ~ (2 <= n < n - 1) /\
    _isprime fuel n k t pos = Ok (false, S pos).
Proof.
  intros n k fuel pos Hn Hk Hfuel t.
  assert (Hdraw : draw_base (n - 1) t pos = Ok (n, S pos)).
  { unfold draw_base, rbind, randbelow, rret, t.
    destruct (n - 1 <=? 0) eqn:E; [lia |].
    rewrite Z.mod_small by lia. do 2 f_equal. lia. }
  split; [exact Hdraw |]. split; [lia |].
  unfold _isprime. destruct (n <=? 3) eqn:E3; [lia |].
  destruct (split_twos_enough fuel 0 (n - 1)) as (s & d & Hrun & Hs & Hd & Hprod & Hodd);
    [lia |].
  rewrite Z.sub_0_r in Hprod.
  unfold rbind at 1, lift at 1. rewrite Hrun. cbn [omap bind].
  unfold rbind at 1, lift at 1.
  replace (2 ^ s * d =? n - 1) with true by (symmetry; apply Z.eqb_eq; exact Hprod).
  replace (Z.land d 1 =? 0) with false by (symmetry; apply Z.eqb_neq; exact Hodd).
  cbn [andb negb py_assert omap bind].
  destruct (Z.to_nat k) as [| k'] eqn:Ek; [lia |].
  cbn [rounds]. unfold rbind at 1. rewrite Hdraw.
  unfold rbind at 1, lift at 1, round_passes, py_pow.
  destruct (n =? 0) eqn:E0; [lia |].
  destruct (d <? 0) eqn:Ed; [lia |].
  cbn [bind omap].
  assert (Hx : n ^ d mod n = 0).
  { replace d with (Z.succ (d - 1)) by lia.
    rewrite Z.pow_succ_r by lia. rewrite Z.mul_comm. apply Z.mod_mul. lia. }
  rewrite Hx.
  destruct (0 =? 1) eqn:E1; [lia |].
  destruct (0 =? n - 1) eqn:E2; [lia |].
  cbn [orb]. rewrite square_loop_zero by exact Hn. reflexivity.
Qed.

(** The prime [97] is declared composite when the first draw is [95]. *)
Lemma isprime_base_out_of_range_witness :
  draw_base (97 - 1) (fun _ => 97 - 2) 0%nat = Ok (97, 1%nat) /\
  ~ (2 <= 97 < 97 - 1) /\
  _isprime 10 97 30 (fun _ => 97 - 2) 0%nat = Ok (false, 1%nat).
Proof.
  apply (isprime_base_out_of_range 97 30 10 0); [lia | lia | simpl; lia].
Defined.

(** *** Prime sampling and key generation *)

Lemma isprime_small (fuel : nat) (n k : Z) (t : tape) (pos : nat) :
  n <= 3 -> _isprime fuel n k t pos = Ok ((n =? 2) || (n =? 3), pos).
Proof.
  intros Hn. unfold _isprime.
  destruct (n <=? 3) eqn:E; [reflexivity | lia].
Qed.

Lemma isprime_true_ge_2 (fuel : nat) (n k : Z) (t : tape) (pos pos' : nat) :
  _isprime fuel n k t pos = Ok (true, pos') -> 2 <= n.
Proof.
  unfold _isprime. destruct (n <=? 3) eqn:E.
  - unfold rret. intros H. injection H as H _.
    apply orb_true_iff in H. lia.
  - intros _. lia.
Qed.

Lemma randbelow_ok (n : Z) (t : tape) (pos : nat) (r : Z) (pos' : nat) :
  randbelow n t pos = Ok (r, pos') -> 0 <= r < n.
Proof.
  unfold randbelow. destruct (n <=? 0) eqn:E; [discriminate |].
  intros H. injection H as H _. subst r.
  apply Z.mod_pos_bound. lia.
Qed.

(** A prime that [_randprime] returns lies in [2, num]. *)
Lemma randprime_loop_range (fuel : nat) (num : Z) :
  forall (prime : Z) (t : tape) (pos : nat) (p : Z) (pos' : nat),
    prime = 1 \/ 1 <= prime <= num ->
    randprime_loop fuel num prime t pos = Ok (p, pos') ->
    2 <= p <= num.
Proof.
  induction fuel as [| f IH]; intros prime t pos p pos' Hinv; simpl.
  - discriminate.
  - unfold rbind at 1.
    destruct (_isprime (S f) prime 30 t pos) as [[b pos1] | e | ] eqn:Ep;
      try discriminate.
    destruct b.
    + unfold rret. intros H. injection H as H _. subst p.
      apply isprime_true_ge_2 in Ep. lia.
    + unfold rbind.
      destruct (randbelow num t pos1) as [[r pos2] | e | ] eqn:Er;
        try discriminate.
      apply randbelow_ok in Er.
      apply IH. right. lia.
Qed.

Lemma randprime_range (fuel : nat) (num : Z) (t : tape) (pos : nat)
    (p : Z) (pos' : nat) :
  _randprime fuel num t pos = Ok (p, pos') -> 2 <= p <= num.
Proof.
  unfold _randprime. apply randprime_loop_range. left; reflexivity.
Qed.

(** With the bound [1] every candidate is [1], which is no prime. *)
Lemma randprime_loop_1_never_ends (fuel : nat) :
  forall (t : tape) (pos : nat), randprime_loop fuel 1 1 t pos = OutOfFuel.
Proof.
  induction fuel as [| f IH]; intros t pos; simpl.
  - reflexivity.
  - unfold rbind at 1. rewrite isprime_small by lia. simpl.
    unfold rbind, randbelow. simpl.
    rewrite Z.mod_1_r. simpl. apply IH.
Qed.

Lemma py_pow_range (b e m r : Z) :
  0 < m -> py_pow b e m = Ok r -> 0 <= r < m.
Proof.
  intros Hm. unfold py_pow.
  destruct (m =? 0); [discriminate |].
  destruct (e <? 0).
  - destruct (Z.gcd b m =? 1); [| discriminate].
    intros H; injection H as H; subst r. apply Z.mod_pos_bound; exact Hm.
  - intros H; injection H as H; subst r. apply Z.mod_pos_bound; exact Hm.
Qed.

(** The probe is not below a modulus of at most [1234567], so the last
    assertion of [generate_keys] fails on every such key. *)
Lemma generate_keys_small_bound (num : Z) :
  num * num <= probe -> never_returns (fun fuel => generate_keys fuel num).
Proof.
  intros Hnum fuel t pos. unfold generate_keys.
  unfold rbind at 1.
  destruct (_randprime fuel num t pos) as [[p pos1] | e | ] eqn:E1; trivial.
  unfold rbind at 1.
  destruct (_randprime fuel num t pos1) as [[q pos2] | e | ] eqn:E2; trivial.
  apply randprime_range in E1. apply randprime_range in E2.
  unfold rbind at 1.
  destruct (private_loop fuel ((p - 1) * (q - 1)) t pos2)
    as [[d pos3] | e | ]; trivial.
  unfold rbind at 1, lift at 1.
  destruct (_multinv fuel ((p - 1) * (q - 1)) d) as [pub | e | ]; simpl; trivial.
  unfold rbind at 1, lift at 1.
  destruct (py_mod (pub * d) ((p - 1) * (q - 1))) as [pp | e | ]; simpl; trivial.
  unfold rbind at 1, lift at 1.
  destruct (py_assert _) as [[] | e | ]; simpl; trivial.
  unfold rbind at 1, lift at 1.
  destruct (py_pow probe pub (p * q)) as [c | e | ]; simpl; trivial.
  unfold rbind at 1, lift at 1.
  destruct (py_pow c d (p * q)) as [m | e | ] eqn:Em; simpl; trivial.
  apply py_pow_range in Em; [| nia].
  unfold rbind, lift.
  replace (m =? probe) with false; [simpl; trivial |].
  symmetry. apply Z.eqb_neq. nia.
Qed.

(** C7.  The probe check compares a residue below the modulus with
    [1234567], so it fails on every modulus up to [1234567]: with the bound
    [3] key generation never returns a key.  On the tape that is constantly
    [1] (the primes [2] and [2]) the assertion of [_multinv] fails; on the
    tape [1, 2, 3, 4, ...] (the primes [2] and [3], both exponents [1]) the
    probe check does: the probe comes back as [1234567 mod 6 = 1]. *)
Theorem selfcheck_fails_on_small_keys :
  never_returns (fun fuel => generate_keys fuel 3) /\
  generate_keys 50 3 (fun _ => 1) 0%nat = Raise AssertionError /\
  generate_keys 50 3 (fun i => Z.of_nat i + 1) 0%nat = Raise AssertionError /\
  (c <- py_pow probe 1 6 ;; py_pow c 1 6)%outcome = Ok 1.
Proof.
  split; [| repeat split; vm_compute; reflexivity].
  apply generate_keys_small_bound. vm_compute. discriminate.
Qed.

(** C5 as the code has it.  With the bound [1] the prime-sampling loop
    has no attempt limit and never ends: [generate_keys] is still running
    after any number of iterations, whatever the draws. *)
Theorem generate_keys_bound_1_never_ends :
  never_ends (fun fuel => generate_keys fuel 1).
Proof.
  intros fuel t pos. unfold generate_keys, _randprime, rbind.
  rewrite randprime_loop_1_never_ends. reflexivity.
Qed.

(** C5 does not hold as stated: with the bound [1] key generation never
    ends in a failure, of any kind. *)
Lemma generate_keys_bound_1_no_failure :
  ~ (exists (fuel : nat) (t : tape) (pos : nat) (e : exn),
        generate_keys fuel 1 t pos = Raise e).
Proof.
  intros (fuel & t & pos & e & H).
  unfold generate_keys, _randprime, rbind in H.
  rewrite randprime_loop_1_never_ends in H. discriminate.
Qed.

(** *** The block codec *)

Lemma length_range_from (fuel : nat) (start stop step : Z) :
  (List.length (range_from fuel start stop step) <= fuel)%nat.
Proof.
  revert start. induction fuel as [| f IH]; intros start; cbn [range_from].
  - simpl. lia.
  - destruct (start <? stop); cbn [List.length]; [specialize (IH (start + step)) |]; lia.
Qed.

Lemma py_range_pos (stop step : Z) :
  0 < step ->
  py_range stop step = Ok (range_from (Z.to_nat stop) 0 stop step).
Proof.
  intros Hs. unfold py_range.
  destruct (step =? 0) eqn:E0; [lia |].
  destruct (step <? 0) eqn:E1; [lia | reflexivity].
Qed.

Lemma length_padded (L : Z) (chunk : bytes) :
  len chunk <= L -> len (padded L chunk) = L.
Proof.
  unfold padded, zeros, len. intros H.
  rewrite length_app, repeat_length. lia.
Qed.

Section Codec.

Variable ilog : Z -> Z.
Variable self : RSAKey.
Variable L : Z.
Hypothesis HL : 1 <= L.
Hypothesis Hlo : 256 ^ L <= composite self.
Hypothesis Hhi : composite self < 256 ^ (L + 1).

Lemma composite_pos : 0 < composite self.
Proof. pose proof (Z.pow_pos_nonneg 256 L ltac:(lia) ltac:(lia)). lia. Qed.

Lemma padded_value_below (chunk : bytes) :
  len chunk <= L -> 0 <= be_val (padded L chunk) < composite self.
Proof.
  intros Hc. pose proof (be_val_range (padded L chunk)) as H.
  rewrite length_padded in H by exact Hc. lia.
Qed.

(** One pass of the encryption loop on a piece of at most [L] bytes. *)
Lemma encrypt_chunk_ok (chunk : bytes) :
  0 <= pubkey self -> len chunk <= L ->
  encrypt_chunk self L (L + 1) chunk = Ok (encoded_block self L chunk).
Proof.
  intros He Hc. unfold encrypt_chunk, encoded_block. fold (padded L chunk).
  pose proof composite_pos as Hn.
  rewrite int16_hexlify.
  2:{ intros E. pose proof (length_padded L chunk Hc) as Hp.
      rewrite E in Hp. unfold len in Hp. simpl in Hp. lia. }
  cbn [bind]. unfold py_pow.
  destruct (composite self =? 0) eqn:E0; [lia |].
  destruct (pubkey self <? 0) eqn:E1; [lia |].
  cbn [bind]. apply unhexlify_format_hex; [lia |].
  pose proof (Z.mod_pos_bound (be_val (padded L chunk) ^ pubkey self)
                (composite self) Hn). lia.
Qed.

Lemma length_encoded_block (chunk : bytes) :
  List.length (encoded_block self L chunk) = Z.to_nat (L + 1).
Proof. unfold encoded_block. apply length_be_bytes. Qed.

(** [encrypt] returns the blocks of the pieces of the data, end to end. *)
Lemma encrypt_blocks (data : pydata) :
  log256 ilog (composite self) = Ok L ->
  0 <= pubkey self ->
  encrypt ilog self data =
  Ok (List.concat
        (map (encoded_block self L)
             (chunks (List.length (to_bytes data)) (Z.to_nat L)
                     (to_bytes data)))).
Proof.
  intros Hlog He. unfold encrypt. rewrite Hlog. cbn [bind].
  rewrite py_range_pos by lia. cbn [bind].
  unfold len at 1. rewrite Nat2Z.id.
  unfold encrypt_block.
  rewrite <- (map_map (fun s => slice (to_bytes data) s (s + L))
                      (encrypt_chunk self L (L + 1))).
  rewrite slices_chunks by lia.
  rewrite sequence_map_ok with (g := encoded_block self L); [reflexivity |].
  intros c Hin. apply encrypt_chunk_ok; [exact He |].
  pose proof (chunks_lengths (Z.to_nat L) ltac:(lia)
                (List.length (to_bytes data)) (to_bytes data)) as Hall.
  rewrite Forall_forall in Hall. specialize (Hall c Hin).
  unfold len. lia.
Qed.

(** One pass of the decryption loop on a block whose number decrypts
    below [256 ^ L]. *)
Lemma decrypt_chunk_ok (bcoded : bytes) :
  0 <= privkey self -> bcoded <> [] ->
  be_val bcoded ^ privkey self mod composite self < 256 ^ L ->
  decrypt_chunk self L (L + 1) bcoded =
  Ok (be_bytes (Z.to_nat L) (be_val bcoded ^ privkey self mod composite self)).
Proof.
  intros Hd Hne Hsmall. unfold decrypt_chunk.
  pose proof composite_pos as Hn.
  rewrite int16_hexlify by exact Hne. cbn [bind]. unfold py_pow.
  destruct (composite self =? 0) eqn:E0; [lia |].
  destruct (privkey self <? 0) eqn:E1; [lia |].
  cbn [bind]. apply unhexlify_format_hex; [lia |].
  pose proof (Z.mod_pos_bound (be_val bcoded ^ privkey self)
                (composite self) Hn). lia.
Qed.

(** Null bytes in front of a block do not change what it decrypts to. *)
Lemma decrypt_chunk_zeros (k : nat) (bcoded : bytes) :
  bcoded <> [] ->
  decrypt_chunk self L (L + 1) (repeat x00 k ++ bcoded) =
  decrypt_chunk self L (L + 1) bcoded.
Proof.
  intros Hne. unfold decrypt_chunk.
  rewrite !int16_hexlify; [| exact Hne |].
  - rewrite be_val_app, be_val_zeros. reflexivity.
  - destruct k; [exact Hne | discriminate].
Qed.

End Codec.

(** With exact exponents over two distinct primes, a block decrypts to
    the piece it encrypts, filled to [L] bytes. *)
Lemma decrypt_encoded_block (self : RSAKey) (L p q : Z) (chunk : bytes) :
  1 <= L ->
  256 ^ L <= composite self -> composite self < 256 ^ (L + 1) ->
  Z.prime p -> Z.prime q -> p <> q -> composite self = p * q ->
  0 <= pubkey self -> 0 <= privkey self ->
  (pubkey self * privkey self) mod ((p - 1) * (q - 1)) = 1 ->
  len chunk <= L ->
  decrypt_chunk self L (L + 1) (encoded_block self L chunk) =
  Ok (padded L chunk).
Proof.
  intros HL Hlo Hhi Hp Hq Hne Hn He Hd Hed Hc.
  assert (Hpos : 0 < composite self) by (apply (composite_pos self L); assumption).
  assert (Hm : 0 <= be_val (padded L chunk) < composite self)
    by (apply padded_value_below; assumption).
  pose proof (length_padded L chunk Hc) as Hlen.
  set (m := be_val (padded L chunk)) in *.
  set (c := m ^ pubkey self mod composite self).
  assert (Hcr : 0 <= c < composite self) by (apply Z.mod_pos_bound; exact Hpos).
  assert (Hval : be_val (encoded_block self L chunk) = c).
  { unfold encoded_block. fold m. fold c.
    rewrite be_val_be_bytes by lia.
    rewrite Z2Nat.id by lia. apply Z.mod_small. lia. }
  assert (Hback : c ^ privkey self mod composite self = m).
  { unfold c. rewrite Hn. apply rsa_identity; try assumption.
    rewrite <- Hn. exact Hm. }
  rewrite decrypt_chunk_ok; try assumption.
  - rewrite Hval, Hback. f_equal. unfold m.
    replace (Z.to_nat L) with (List.length (padded L chunk))
      by (unfold len in Hlen; lia).
    apply be_bytes_be_val.
  - intros E. pose proof (length_encoded_block self L chunk) as Hl.
    rewrite E in Hl. simpl in Hl. lia.
  - rewrite Hval, Hback.
    pose proof (be_val_range (padded L chunk)) as Hr.
    rewrite Hlen in Hr. unfold m. lia.
Qed.

(** [decrypt] cuts its argument into pieces of [L + 1] bytes. *)
Lemma decrypt_pieces (ilog : Z -> Z) (self : RSAKey) (L : Z) (data : bytes) :
  1 <= L -> log256 ilog (composite self) = Ok L ->
  decrypt ilog self data =
  (result <- sequence (map (decrypt_chunk self L (L + 1))
                           (chunks (List.length data) (Z.to_nat (L + 1)) data)) ;;
   Ok (rstrip_x00 (List.concat result)))%outcome.
Proof.
  intros HL Hlog. unfold decrypt. rewrite Hlog. cbn [bind].
  rewrite py_range_pos by lia. cbn [bind].
  unfold len at 1. rewrite Nat2Z.id. unfold decrypt_block.
  rewrite <- (map_map (fun s => slice data s (s + (L + 1)))
                      (decrypt_chunk self L (L + 1))).
  rewrite slices_chunks by lia. reflexivity.
Qed.



(** *** The generators against the batch functions *)

Lemma py_range_length (stop step : Z) (starts : list Z) :
  py_range stop step = Ok starts ->
  (List.length starts <= Z.to_nat stop)%nat.
Proof.
  unfold py_range. destruct (step =? 0); [discriminate |].
  destruct (step <? 0); intros H; injection H as H; subst starts.
  - simpl. lia.
  - apply length_range_from.
Qed.

(** Draining a generator suspended in its loop runs the loop body over
    the rest of the range. *)
Lemma drain_loop (next : gen_state -> gen_step)
    (body : Z -> Z -> Z -> outcome bytes) :
  (forall cs oc starts, next (GenLoop cs oc starts) = gen_resume body cs oc starts) ->
  forall (starts : list Z) (cs oc : Z) (fuel : nat),
    (List.length starts < fuel)%nat ->
    drain fuel next (GenLoop cs oc starts) = sequence (map (body cs oc) starts).
Proof.
  intros Hnext. induction starts as [| s rest IH]; intros cs oc fuel Hfuel;
    (destruct fuel as [| f]; [simpl in Hfuel; lia |]); cbn [drain].
  - rewrite Hnext. reflexivity.
  - rewrite Hnext. cbn [gen_resume map sequence].
    destruct (body cs oc s) as [block | e | ]; cbn [bind]; try reflexivity.
    rewrite IH by (simpl in Hfuel; lia). reflexivity.
Qed.

Lemma drain_encrypt_generator (ilog : Z -> Z) (self : RSAKey) (data : pydata)
    (fuel : nat) :
  (List.length (to_bytes data) < fuel)%nat ->
  drain fuel (encrypt_generator_next ilog self data) GenStart =
  (chunksize <- log256 ilog (composite self) ;;
   starts <- py_range (len (to_bytes data)) chunksize ;;
   sequence (map (encrypt_block self chunksize (chunksize + 1) (to_bytes data))
                 starts))%outcome.
Proof.
  intros Hfuel. destruct fuel as [| f]; [lia |].
  cbn [drain]. unfold encrypt_generator_next at 1.
  destruct (log256 ilog (composite self)) as [cs | e | ]; cbn [bind];
    try reflexivity.
  destruct (py_range (len (to_bytes data)) cs) as [starts | e | ] eqn:Er;
    cbn [bind]; try reflexivity.
  apply py_range_length in Er. unfold len in Er. rewrite Nat2Z.id in Er.
  rewrite <- (drain_loop (encrypt_generator_next ilog self data)
                (fun cs oc start => encrypt_block self cs oc (to_bytes data) start))
    with (fuel := S f) by (reflexivity || lia).
  reflexivity.
Qed.

Lemma drain_decrypt_generator (ilog : Z -> Z) (self : RSAKey) (data : bytes)
    (fuel : nat) :
  (List.length data < fuel)%nat ->
  drain fuel (decrypt_generator_next ilog self data) GenStart =
  (chunksize <- log256 ilog (composite self) ;;
   starts <- py_range (len data) (chunksize + 1) ;;
   sequence (map (fun start =>
                    omap rstrip_x00
                      (decrypt_block self chunksize (chunksize + 1) data start))
                 starts))%outcome.
Proof.
  intros Hfuel. destruct fuel as [| f]; [lia |].
  cbn [drain]. unfold decrypt_generator_next at 1.
  destruct (log256 ilog (composite self)) as [cs | e | ]; cbn [bind];
    try reflexivity.
  destruct (py_range (len data) (cs + 1)) as [starts | e | ] eqn:Er;
    cbn [bind]; try reflexivity.
  apply py_range_length in Er. unfold len in Er. rewrite Nat2Z.id in Er.
  rewrite <- (drain_loop (decrypt_generator_next ilog self data)
                (fun cs oc start =>
                   omap rstrip_x00 (decrypt_block self cs oc data start)))
    with (fuel := S f) by (reflexivity || lia).
  reflexivity.
Qed.

(** C9.  Batch and lazy encryption are one computation: for every key
    and every plaintext, whatever [math.log] gives, joining the blocks the
    generator yields (drained by more calls of [next] than the plaintext has
    bytes) is the outcome of [encrypt], the same bytes or the same
    exception. *)
Theorem lazy_encrypt_is_batch_encrypt :
  forall (ilog : Z -> Z) (self : RSAKey) (data : pydata) (extra : nat),
    omap (@List.concat byte)
         (drain (S (List.length (to_bytes data)) + extra)
                (encrypt_generator_next ilog self data) GenStart) =
    encrypt ilog self data.
Proof.
  intros ilog self data extra.
  rewrite drain_encrypt_generator by lia.
  unfold encrypt, omap.
  destruct (log256 ilog (composite self)) as [cs | e | ]; cbn [bind];
    try reflexivity.
  destruct (py_range (len (to_bytes data)) cs) as [starts | e | ];
    cbn [bind]; reflexivity.
Qed.

(** X19.  The length law where the logarithm is exact.  For a modulus of
    at least [256] on which [int(math.log(modulus, 256))] is
    [L = floor (log256 modulus)], and an unsigned public exponent, [encrypt]
    returns [ceil (n / L)] blocks for a plaintext of [n] bytes; every block
    has [L + 1] bytes and writes a number below the modulus, which is below
    [256 ^ (L + 1)]; the length of the ciphertext is
    [ceil (n / L) * (L + 1)], a multiple of [L + 1]. *)
Theorem ciphertext_length_law :
  forall (ilog : Z -> Z) (self : RSAKey) (data : pydata),
    exact_at ilog (composite self) ->
    256 <= composite self -> 0 <= pubkey self ->
    let L := floor_log256 (composite self) in
    let n := len (to_bytes data) in
    exists blocks : list bytes,
      encrypt ilog self data = Ok (List.concat blocks) /\
      len blocks = (n + L - 1) / L /\
      Forall (fun b => len b = L + 1 /\ 0 <= be_val b < composite self)
             blocks /\
      len (List.concat blocks) = (n + L - 1) / L * (L + 1) /\
      len (List.concat blocks) mod (L + 1) = 0 /\
      composite self < 256 ^ (L + 1).
Proof.
  intros ilog self data Hex H256 He L n.
  destruct (log256_spec ilog (composite self) H256 Hex)
    as (Hlog & HL & Hlo & Hhi).
  fold L in Hlog, HL, Hlo, Hhi.
  set (pieces := chunks (List.length (to_bytes data)) (Z.to_nat L)
                        (to_bytes data)).
  exists (map (encoded_block self L) pieces).
  assert (Hcount : len (map (encoded_block self L) pieces) = (n + L - 1) / L).
  { unfold len at 1. rewrite length_map. unfold pieces.
    rewrite length_chunks by lia. rewrite !Z2Nat.id by lia. reflexivity. }
  assert (Hall : Forall (fun b => List.length b = Z.to_nat (L + 1))
                        (map (encoded_block self L) pieces)).
  { apply Forall_map, Forall_forall. intros c _. apply length_encoded_block. }
  assert (Hlen : len (List.concat (map (encoded_block self L) pieces)) =
                 (n + L - 1) / L * (L + 1)).
  { unfold len at 1. rewrite (length_concat_uniform _ _ Hall).
    rewrite Nat2Z.inj_mul. fold (len (map (encoded_block self L) pieces)).
    rewrite Hcount, Z2Nat.id by lia. reflexivity. }
  split; [apply (encrypt_blocks ilog self L); assumption |].
  split; [exact Hcount |]. split.
  - apply Forall_map, Forall_forall. intros c _.
    assert (Hn : 0 < composite self) by lia.
    pose proof (Z.mod_pos_bound (be_val (padded L c) ^ pubkey self)
                  (composite self) Hn) as Hv.
    split.
    + unfold len. rewrite length_encoded_block. lia.
    + unfold encoded_block. rewrite be_val_be_bytes by lia.
      rewrite Z2Nat.id by lia. rewrite Z.mod_small by lia. exact Hv.
  - rewrite Hlen. repeat split; try assumption.
    apply Z.mod_mul. lia.
Qed.

(** The law under the key [(173, 5, 323)], whose chunk length is [1], on
    ['hello']: ten bytes. *)
Lemma ciphertext_length_law_witness :
  exists blocks : list bytes,
    encrypt floor_log256 (init_keys (173, 5, 323)) (PyStr "hello")
    = Ok (List.concat blocks) /\
    len (List.concat blocks) = 10.
Proof.
  destruct (ciphertext_length_law floor_log256 (init_keys (173, 5, 323))
              (PyStr "hello"))
    as (blocks & Henc & _ & _ & Hlen & _);
    [reflexivity | simpl; lia | simpl; lia |].
  exists blocks. split; [exact Henc | exact Hlen].
Defined.

(** C6.  The chunk length of the code is [int(math.log(modulus, 256))],
    the quotient of two floating-point logarithms, and that is not
    [floor (log256 modulus)] on every modulus of at least [256].  On
    [256 ^ 7 - 29], which is below [256 ^ 7], the floor is [6] and the code
    gets [7]: [encrypt] cuts pieces of seven bytes and writes blocks of
    eight.  Under the key [(1, 1, 256 ^ 7 - 29)] the seven bytes
    [b'\xff' * 7] give one block, [8] bytes and no multiple of [7], where the
    law gives [ceil (7 / 6) * 7 = 14].  The piece is the number
    [256 ^ 7 - 1], not below the modulus: the block holds its residue [28],
    the block of the plaintext [b'\x00\x00\x00\x00\x00\x00\x1c'] as well, and
    that plaintext is what [decrypt] reads in it. *)
Theorem chunk_length_rounds_up :
  256 <= rounding_modulus < 256 ^ 7 /\
  floor_log256 rounding_modulus = 6 /\
  log_rounding_up rounding_modulus = 7 /\
  encrypt log_rounding_up (init_keys (1, 1, rounding_modulus))
          (PyBytes [xff; xff; xff; xff; xff; xff; xff])
  = Ok [x00; x00; x00; x00; x00; x00; x00; x1c] /\
  len [x00; x00; x00; x00; x00; x00; x00; x1c] = 8 /\
  (len [xff; xff; xff; xff; xff; xff; xff] + 6 - 1) / 6 * (6 + 1) = 14 /\
  len [x00; x00; x00; x00; x00; x00; x00; x1c] mod (6 + 1) <> 0 /\
  rounding_modulus <= be_val [xff; xff; xff; xff; xff; xff; xff] /\
  encrypt log_rounding_up (init_keys (1, 1, rounding_modulus))
          (PyBytes [x00; x00; x00; x00; x00; x00; x1c])
  = Ok [x00; x00; x00; x00; x00; x00; x00; x1c] /\
  decrypt log_rounding_up (init_keys (1, 1, rounding_modulus))
          [x00; x00; x00; x00; x00; x00; x00; x1c]
  = Ok [x00; x00; x00; x00; x00; x00; x1c].
Proof.
  split_all; by_running.
Qed.

(** *** Ciphertexts of any length *)

Lemma length_left_padded (width : Z) (data : bytes) :
  0 < width -> len (left_padded width data) mod width = 0.
Proof.
  intros Hw. unfold left_padded.
  pose proof (Z.mod_pos_bound (len data) width Hw) as Hr.
  pose proof (Z.div_mod (len data) width ltac:(lia)) as Hdm.
  destruct (len data mod width =? 0) eqn:E; [lia |].
  unfold len in *. unfold zeros.
  rewrite !length_app, repeat_length, length_firstn, length_skipn.
  set (r := Z.of_nat (List.length data) mod width) in *.
  replace (Z.of_nat
             (Nat.min (Z.to_nat (Z.of_nat (List.length data) - r))
                      (List.length data) +
              (Z.to_nat (width - r) +
               (List.length data - Z.to_nat (Z.of_nat (List.length data) - r)))))
    with ((Z.of_nat (List.length data) / width + 1) * width) by lia.
  apply Z.mod_mul. lia.
Qed.

(** The pieces [decrypt] cuts from a ciphertext decrypt as the pieces of
    the ciphertext with its short last block filled on the left. *)
Lemma decrypt_pieces_left_padded (self : RSAKey) (L : Z) (data : bytes) :
  1 <= L -> len data mod (L + 1) <> 0 ->
  map (decrypt_chunk self L (L + 1))
      (chunks (List.length data) (Z.to_nat (L + 1)) data) =
  map (decrypt_chunk self L (L + 1))
      (chunks (List.length (left_padded (L + 1) data)) (Z.to_nat (L + 1))
              (left_padded (L + 1) data)).
Proof.
  intros HL Hr. unfold left_padded.
  pose proof (Z.mod_pos_bound (len data) (L + 1) ltac:(lia)) as Hrb.
  pose proof (Z.div_mod (len data) (L + 1) ltac:(lia)) as Hdm.
  destruct (len data mod (L + 1) =? 0) eqn:E; [lia |]. clear E.
  set (r := len data mod (L + 1)) in *.
  set (k := len data / (L + 1)) in *.
  assert (Hk : 0 <= k) by (apply Z.div_pos; unfold len; lia).
  set (full := Z.to_nat (len data - r)).
  assert (Hfull : (full <= List.length data)%nat) by (unfold full, len in *; lia).
  remember (firstn full data) as body eqn:Hbody.
  remember (skipn full data) as tail eqn:Htail.
  assert (Hdata : data = body ++ tail)
    by (subst body tail; symmetry; apply firstn_skipn).
  assert (Hlb : List.length body = (Z.to_nat k * Z.to_nat (L + 1))%nat).
  { subst body. rewrite length_firstn, Nat.min_l by exact Hfull.
    unfold full. rewrite <- Z2Nat.inj_mul by lia. f_equal. lia. }
  assert (Hlt : List.length tail = Z.to_nat r).
  { subst tail. rewrite length_skipn. unfold full, len in *. lia. }
  clear Hbody Htail.
  destruct (full_chunks (Z.to_nat (L + 1)) ltac:(lia) (Z.to_nat k) body Hlb)
    as (Hcat & Hall & Hcount).
  set (blocks := chunks (Z.to_nat k) (Z.to_nat (L + 1)) body) in *.
  assert (Htne : tail <> []).
  { intros E. rewrite E in Hlt. simpl in Hlt. lia. }
  rewrite Hdata at 1 2. rewrite <- Hcat.
  rewrite chunks_concat; try assumption; try lia.
  2:{ rewrite length_app, length_concat_uniform with (n := Z.to_nat (L + 1))
        by exact Hall. nia. }
  rewrite chunks_concat; try assumption; try lia.
  2:{ unfold zeros. rewrite length_app, repeat_length. lia. }
  2:{ unfold zeros.
      rewrite !length_app, repeat_length,
        length_concat_uniform with (n := Z.to_nat (L + 1)) by exact Hall.
      nia. }
  destruct tail as [| a t]; [contradiction |].
  destruct (zeros (L + 1 - r) ++ a :: t) as [| z zs] eqn:Ez.
  { apply (f_equal (@List.length byte)) in Ez.
    rewrite length_app in Ez. simpl in Ez. lia. }
  rewrite <- Ez. rewrite !map_app. f_equal. cbn [map]. f_equal.
  unfold zeros. symmetry. apply decrypt_chunk_zeros. discriminate.
Qed.

(** C2 as the code has it.  [decrypt] and [decrypt_generator] never look
    at the length of the ciphertext.  On a modulus of at least [256] on
    which [int(math.log(modulus, 256))] is the exact
    [L = floor (log256 modulus)], when the length is no multiple of [L + 1]
    the short last block is read as the number it writes, like any other:
    the outcome is the outcome on the ciphertext whose last block is filled
    with null bytes on the left, which has a length that is a multiple of
    [L + 1]. *)
Theorem short_last_block_is_decoded :
  forall (ilog : Z -> Z) (self : RSAKey) (data : bytes),
    exact_at ilog (composite self) ->
    256 <= composite self ->
    let L := floor_log256 (composite self) in
    len data mod (L + 1) <> 0 ->
    len (left_padded (L + 1) data) mod (L + 1) = 0 /\
    decrypt ilog self data = decrypt ilog self (left_padded (L + 1) data) /\
    forall extra : nat,
      drain (S (List.length data) + extra)
            (decrypt_generator_next ilog self data) GenStart =
      drain (S (List.length (left_padded (L + 1) data)) + extra)
            (decrypt_generator_next ilog self (left_padded (L + 1) data))
            GenStart.
Proof.
  intros ilog self data Hex H256 L Hr.
  destruct (log256_spec ilog (composite self) H256 Hex) as (Hlog & HL & _).
  fold L in Hlog, HL.
  pose proof (decrypt_pieces_left_padded self L data HL Hr) as Hpieces.
  split; [apply length_left_padded; lia |]. split.
  - rewrite !(decrypt_pieces ilog self L) by assumption.
    rewrite Hpieces. reflexivity.
  - intros extra. rewrite !drain_decrypt_generator by lia.
    rewrite Hlog. cbn [bind]. rewrite !py_range_pos by lia. cbn [bind].
    unfold len at 1 3. rewrite !Nat2Z.id. unfold decrypt_block.
    rewrite <- !(map_map (fun s => slice _ s (s + (L + 1)))
                         (fun c => omap rstrip_x00
                                     (decrypt_chunk self L (L + 1) c))).
    rewrite !slices_chunks by lia.
    rewrite <- !(map_map (decrypt_chunk self L (L + 1)) (omap rstrip_x00)).
    rewrite Hpieces. reflexivity.
Qed.

(** One byte under the key [(173, 5, 323)], whose blocks have two
    bytes, decrypts as the block of a null byte and that byte. *)
Lemma short_last_block_is_decoded_witness :
  decrypt floor_log256 (init_keys (173, 5, 323)) [x02] =
  decrypt floor_log256 (init_keys (173, 5, 323)) [x00; x02].
Proof.
  apply (short_last_block_is_decoded floor_log256 (init_keys (173, 5, 323))
           [x02]).
  - reflexivity.
  - simpl; lia.
  - vm_compute. discriminate.
Defined.

(** C2 does not hold as stated, in two ways.  Under the key
    [(173, 5, 323)], on which [math.log] gives the chunk length [1], the
    blocks have two bytes, and the ciphertext of one byte [b'\x02'] is
    decoded, to [b' '], by [decrypt] and by [decrypt_generator] alike; of the
    three bytes [b'\x00\x20\x03'] both decode the full block and the short
    one.  And [L + 1] is not the block length of the code on every modulus:
    on [256 ^ 7 - 29] the floor is [L = 6] and [math.log] gives [7], so the
    blocks have eight bytes; a ciphertext of eight bytes, no multiple of
    [L + 1 = 7], is one whole block, decoded as such, and filling it on the
    left to fourteen bytes gives another outcome. *)
Lemma short_ciphertext_is_decoded :
  (floor_log256 (composite (init_keys (173, 5, 323))) = 1 /\
   len [x02] mod (1 + 1) <> 0 /\
   decrypt floor_log256 (init_keys (173, 5, 323)) [x02] = Ok [x20] /\
   drain 5 (decrypt_generator_next floor_log256 (init_keys (173, 5, 323)) [x02])
         GenStart = Ok [[x20]] /\
   decrypt floor_log256 (init_keys (173, 5, 323)) [x00; x20; x03]
     = Ok [xdf; xf3] /\
   drain 5 (decrypt_generator_next floor_log256 (init_keys (173, 5, 323))
                                   [x00; x20; x03])
         GenStart = Ok [[xdf]; [xf3]]) /\
  (256 <= composite (init_keys (1, 1, rounding_modulus)) /\
   floor_log256 (composite (init_keys (1, 1, rounding_modulus))) = 6 /\
   log_rounding_up (composite (init_keys (1, 1, rounding_modulus))) = 7 /\
   len [x00; x00; x00; x00; x00; x00; x00; x05] mod (6 + 1) <> 0 /\
   decrypt log_rounding_up (init_keys (1, 1, rounding_modulus))
           [x00; x00; x00; x00; x00; x00; x00; x05]
   = Ok [x00; x00; x00; x00; x00; x00; x05] /\
   left_padded (6 + 1) [x00; x00; x00; x00; x00; x00; x00; x05]
   = [x00; x00; x00; x00; x00; x00; x00;
      x00; x00; x00; x00; x00; x00; x05] /\
   decrypt log_rounding_up (init_keys (1, 1, rounding_modulus))
           (left_padded (6 + 1) [x00; x00; x00; x00; x00; x00; x00; x05])
   = Ok [x00; x00; x00; x00; x00; x00; x00;
         x00; x00; x00; x00; x00; x00; x05] /\
   drain 5 (decrypt_generator_next log_rounding_up
              (init_keys (1, 1, rounding_modulus))
              [x00; x00; x00; x00; x00; x00; x00; x05]) GenStart
   = Ok [[x00; x00; x00; x00; x00; x00; x05]] /\
   drain 5 (decrypt_generator_next log_rounding_up
              (init_keys (1, 1, rounding_modulus))
              (left_padded (6 + 1) [x00; x00; x00; x00; x00; x00; x00; x05]))
         GenStart
   = Ok [[]; [x00; x00; x00; x00; x00; x00; x05]]).
Proof.
  split; split_all; by_running.
Qed.

(** *** The round trip *)

Lemma prime_17 : Z.prime 17.
Proof.
  split; [lia |]. intros n Hn [k Hk].
  assert (H : n = 2 \/ n = 3 \/ n = 4 \/ n = 5 \/ n = 6 \/ n = 7 \/ n = 8 \/
              n = 9 \/ n = 10 \/ n = 11 \/ n = 12 \/ n = 13 \/ n = 14 \/
              n = 15 \/ n = 16) by lia.
  repeat (destruct H as [H | H]; [subst n; lia |]). subst n; lia.
Qed.

Lemma prime_19 : Z.prime 19.
Proof.
  split; [lia |]. intros n Hn [k Hk].
  assert (H : n = 2 \/ n = 3 \/ n = 4 \/ n = 5 \/ n = 6 \/ n = 7 \/ n = 8 \/
              n = 9 \/ n = 10 \/ n = 11 \/ n = 12 \/ n = 13 \/ n = 14 \/
              n = 15 \/ n = 16 \/ n = 17 \/ n = 18) by lia.
  repeat (destruct H as [H | H]; [subst n; lia |]). subst n; lia.
Qed.

(** C1 as the code has it.  For an exact key pair over two distinct
    primes (unsigned exponents with [e * d = 1] modulo the totient, modulus
    at least [256]), on a modulus on which [int(math.log(modulus, 256))] is
    the exact [floor (log256 modulus)], and for every byte string that does
    not end in a null byte, decrypting the encryption gives the byte string
    back. *)
Theorem decrypt_encrypt_roundtrip :
  forall (ilog : Z -> Z) (self : RSAKey) (p q : Z) (m : bytes),
    exact_at ilog (composite self) ->
    Z.prime p -> Z.prime q -> p <> q ->
    composite self = p * q -> 256 <= composite self ->
    0 <= pubkey self -> 0 <= privkey self ->
    (pubkey self * privkey self) mod ((p - 1) * (q - 1)) = 1 ->
    ends_in_x00 m = false ->
    (ct <- encrypt ilog self (PyBytes m) ;; decrypt ilog self ct)%outcome
    = Ok m.
Proof.
  intros ilog self p q data Hex Hp Hq Hne Hn H256 He Hd Hed Hend.
  destruct (log256_spec ilog (composite self) H256 Hex)
    as (Hlog & HL & Hlo & Hhi).
  set (L := floor_log256 (composite self)) in *.
  rewrite (encrypt_blocks ilog self L) by assumption.
  cbn [bind to_bytes].
  set (cs := chunks (List.length data) (Z.to_nat L) data).
  assert (Hcs : Forall (fun c => (0 < List.length c <= Z.to_nat L)%nat) cs)
    by (apply chunks_lengths; lia).
  rewrite (decrypt_pieces ilog self L _ HL Hlog).
  assert (Hall : Forall (fun b => List.length b = Z.to_nat (L + 1))
                        (map (encoded_block self L) cs)).
  { apply Forall_map, Forall_forall. intros c _. apply length_encoded_block. }
  pose proof (chunks_concat (Z.to_nat (L + 1)) (@nil byte) ltac:(lia)
                ltac:(simpl; lia) (map (encoded_block self L) cs)
                (List.length (List.concat (map (encoded_block self L) cs))))
    as Hcut.
  rewrite !app_nil_r in Hcut. rewrite Hcut; [| | exact Hall].
  2:{ rewrite (length_concat_uniform _ _ Hall). cbn [List.length]. nia. }
  rewrite map_map.
  rewrite sequence_map_ok with (g := padded L).
  2:{ intros c Hin. rewrite Forall_forall in Hcs. specialize (Hcs c Hin).
      apply decrypt_encoded_block with (p := p) (q := q); try assumption.
      unfold len. lia. }
  cbn [bind].
  destruct (concat_padded_chunks (Z.to_nat L) ltac:(lia) (List.length data) data
              (Nat.le_refl _)) as [k Hk].
  fold cs in Hk. rewrite Z2Nat.id in Hk by lia.
  rewrite Hk. f_equal. apply rstrip_x00_padded. exact Hend.
Qed.

(** The round trip under the key [(173, 5, 323)] over the primes [17]
    and [19], on [b'hi!']. *)
Lemma decrypt_encrypt_roundtrip_witness :
  (ct <- encrypt floor_log256 (init_keys (173, 5, 323))
                 (PyBytes [x68; x69; x21]) ;;
   decrypt floor_log256 (init_keys (173, 5, 323)) ct)%outcome
  = Ok [x68; x69; x21].
Proof.
  apply (decrypt_encrypt_roundtrip floor_log256 (init_keys (173, 5, 323)) 17 19);
    first [exact prime_17 | exact prime_19 | reflexivity | simpl; lia].
Defined.

Lemma prime_93767917 : Z.prime 93767917.
Proof.
  apply (prime_by_trial_division 9683); [lia | lia | lia |].
  vm_compute. reflexivity.
Qed.

Lemma prime_768467471 : Z.prime 768467471.
Proof.
  apply (prime_by_trial_division 27721); [lia | lia | lia |].
  vm_compute. reflexivity.
Qed.

(** C1 does not hold as stated, in two ways.  The primes need not
    differ: [289 = 17 * 17] is a product of two primes, [3 * 171 = 1] modulo
    [16 * 16], [math.log] gives the chunk length [1] on [289], and the
    plaintext [b'\x11'] (the number [17]) encrypts to the block of [0] and
    decrypts to [b''].  And a modulus of at least [256] does not make the
    chunk length [floor (log256 modulus)]: [256 ^ 7 - 29] is the product of
    the distinct primes [93767917] and [768467471], the exponents [1] and
    [1] are an exact pair (one that [generate_keys] returns when the private
    draw is [0]), the floor is [6] and [math.log] gives [7]; the plaintext
    [b'\xff' * 7] is one piece, the number [256 ^ 7 - 1], not below the
    modulus, and comes back as the seven bytes of its residue [28]. *)
Lemma roundtrip_fails_on_equal_primes_and_rounded_log :
  (Z.prime 17 /\
   composite (init_keys (3, 171, 289)) = 17 * 17 /\
   256 <= composite (init_keys (3, 171, 289)) /\
   (3 * 171) mod ((17 - 1) * (17 - 1)) = 1 /\
   [x11] <> [] /\
   ends_in_x00 [x11] = false /\
   floor_log256 289 = 1 /\
   encrypt floor_log256 (init_keys (3, 171, 289)) (PyBytes [x11])
     = Ok [x00; x00] /\
   (ct <- encrypt floor_log256 (init_keys (3, 171, 289)) (PyBytes [x11]) ;;
    decrypt floor_log256 (init_keys (3, 171, 289)) ct)%outcome = Ok [] /\
   (ct <- encrypt floor_log256 (init_keys (3, 171, 289)) (PyBytes [x11]) ;;
    decrypt floor_log256 (init_keys (3, 171, 289)) ct)%outcome <> Ok [x11]) /\
  (Z.prime 93767917 /\ Z.prime 768467471 /\ 93767917 <> 768467471 /\
   composite (init_keys (1, 1, rounding_modulus)) = 93767917 * 768467471 /\
   256 <= composite (init_keys (1, 1, rounding_modulus)) /\
   (1 * 1) mod ((93767917 - 1) * (768467471 - 1)) = 1 /\
   [xff; xff; xff; xff; xff; xff; xff] <> [] /\
   ends_in_x00 [xff; xff; xff; xff; xff; xff; xff] = false /\
   floor_log256 rounding_modulus = 6 /\
   log_rounding_up rounding_modulus = 7 /\
   (ct <- encrypt log_rounding_up (init_keys (1, 1, rounding_modulus))
                  (PyBytes [xff; xff; xff; xff; xff; xff; xff]) ;;
    decrypt log_rounding_up (init_keys (1, 1, rounding_modulus)) ct)%outcome
   = Ok [x00; x00; x00; x00; x00; x00; x1c] /\
   (ct <- encrypt log_rounding_up (init_keys (1, 1, rounding_modulus))
                  (PyBytes [xff; xff; xff; xff; xff; xff; xff]) ;;
    decrypt log_rounding_up (init_keys (1, 1, rounding_modulus)) ct)%outcome
   <> Ok [xff; xff; xff; xff; xff; xff; xff]).
Proof.
  split.
  - split; [exact prime_17 |]. split_all; by_running.
  - split; [exact prime_93767917 |]. split; [exact prime_768467471 |].
    split_all; by_running.
Qed.


End RSAFacts.

(* ------------------------------------------------------------------ *)
(** ** The stream cipher *)

Lemma length_hexlify (data : bytes) :
  List.length (hexlify data) = (2 * List.length data)%nat.
Proof.
  induction data as [| b rest IH]; simpl; [reflexivity | rewrite IH; lia].
Qed.

Module VigenereFacts.
Import Vigenere.

(** C10 as the code has it.  [copy] hands the stored key, which is
    hexadecimal text already, to the constructor, which writes it in
    hexadecimal once more: for every key object the key of the copy is
    [hexlify] of the key of the original, twice as long, and so, when the
    stored key is not empty, another key.  The copy of the key made from the
    byte [0x58] does not decrypt what the original encrypts: [b'a'] comes
    back as [b'c']. *)
Theorem copy_hexlifies_key_again :
  (forall self : VigenereKey,
      key (copy self) = hexlify (key self) /\
      len (key (copy self)) = 2 * len (key self) /\
      (key self <> [] -> key (copy self) <> key self)) /\
  (exists (self : VigenereKey) (m : bytes) (c : string),
      m <> [] /\
      encrypt self (PyBytes m) = Ok c /\
      decrypt self (PyStr c) = Ok m /\
      decrypt (copy self) (PyStr c) = Ok [x63] /\
      decrypt (copy self) (PyStr c) <> Ok m).
Proof.
  split.
  - intros self.
    assert (Hlen : len (key (copy self)) = 2 * len (key self)).
    { unfold copy, init_key, len. cbn [key]. rewrite length_hexlify. lia. }
    split; [reflexivity |]. split; [exact Hlen |].
    intros Hne Heq. rewrite Heq in Hlen.
    destruct (key self) as [| b rest]; [contradiction |].
    unfold len in Hlen. cbn [List.length] in Hlen. lia.
  - exists (init_key (PyBytes [x58])), [x61], "96"%string.
    repeat split; try (vm_compute; reflexivity); vm_compute; discriminate.
Qed.

(** The key made from the byte [0x58] stores [b'58']; its copy stores
    [b'3538']. *)
Lemma copy_hexlifies_key_again_witness :
  key (init_key (PyBytes [x58])) <> [] /\
  key (copy (init_key (PyBytes [x58]))) = [x33; x35; x33; x38] /\
  key (copy (init_key (PyBytes [x58]))) <> key (init_key (PyBytes [x58])).
Proof.
  destruct copy_hexlifies_key_again as [Hall _].
  destruct (Hall (init_key (PyBytes [x58]))) as (Hkey & _ & Hne).
  split; [discriminate |]. split; [exact Hkey |].
  apply Hne. discriminate.
Defined.

(** C10 does not hold as stated: the claim is about every key object, and
    the key made from no bytes, [VigenereKey(key=b'')], which is also what
    [VigenereKey(0)] builds, stores the empty key; its hexadecimal text is
    empty again, so the copy holds an identical key and decrypts what the
    original encrypts. *)
Lemma copy_of_empty_key_is_identical :
  key (init_key (PyBytes [])) = [] /\
  init_generate 0 (fun _ => 0) 0%nat = Ok (init_key (PyBytes []), 0%nat) /\
  key (copy (init_key (PyBytes []))) = key (init_key (PyBytes [])) /\
  copy (init_key (PyBytes [])) = init_key (PyBytes []) /\
  encrypt (init_key (PyBytes [])) (PyBytes []) = Ok ""%string /\
  decrypt (copy (init_key (PyBytes []))) (PyStr "") = Ok [].
Proof.
  repeat split.
Qed.

End VigenereFacts.

(* ================================================================== *)
(** * Further properties of the code *)

(* ------------------------------------------------------------------ *)
(** ** Key generation *)

Module KeyGenFacts.
Import RSA.

(** *** The modular inverse *)

(** The loop keeps [a] and [b] combinations of [mod_] and [var] with the
    coefficients [lx] and [x] of [mod_], and keeps those coefficients
    small. *)
Lemma multinv_loop_spec (M V : Z) (fuel : nat) :
  forall x lx a b : Z,
    0 <= b < a -> (Z.to_nat b < fuel)%nat ->
    (exists y, b = x * M + y * V) ->
    (exists ly, a = lx * M + ly * V) ->
    Z.abs lx * b + Z.abs x * a <= V ->
    2 * Z.abs lx <= V ->
    exists lxf : Z,
      multinv_loop fuel x lx a b = Ok lxf /\
      2 * Z.abs lxf <= V /\
      exists lyf, Z.gcd a b = lxf * M + lyf * V.
Proof.
  induction fuel as [| f IH]; intros x lx a b Hab Hfuel [y Hy] [ly Hly] Hsum Hlx.
  - lia.
  - cbn [multinv_loop]. destruct (b =? 0) eqn:Eb.
    + apply Z.eqb_eq in Eb. exists lx. split; [reflexivity |].
      split; [exact Hlx |]. exists ly.
      rewrite Eb, Z.gcd_0_r, Z.abs_eq by lia. exact Hly.
    + apply Z.eqb_neq in Eb.
      pose proof (Z.mod_pos_bound a b ltac:(lia)) as Hmod.
      pose proof (Z.div_mod a b ltac:(lia)) as Hdm.
      assert (Hq : 0 <= a / b) by (apply Z.div_pos; lia).
      destruct (IH (lx - a / b * x) x b (a mod b)) as (lxf & Hrun & Hb & lyf & Hg).
      * lia.
      * lia.
      * exists (ly - a / b * y). nia.
      * exists y. exact Hy.
      * assert (Z.abs (lx - a / b * x) <= Z.abs lx + a / b * Z.abs x).
        { pose proof (Z.abs_triangle lx (- (a / b * x))) as Ht.
          rewrite Z.abs_opp, Z.abs_mul, (Z.abs_eq (a / b)) in Ht by lia.
          replace (lx - a / b * x) with (lx + - (a / b * x)) by lia.
          exact Ht. }
        pose proof (Z.abs_nonneg x). pose proof (Z.abs_nonneg lx). nia.
      * pose proof (Z.abs_nonneg x). pose proof (Z.abs_nonneg lx). nia.
      * exists lxf. split; [exact Hrun |]. split; [exact Hb |].
        exists lyf. rewrite <- Hg.
        rewrite (Z.gcd_comm b), Z.gcd_mod by lia. apply Z.gcd_comm.
Qed.

(** X1.  On coprime arguments [_multinv] returns the inverse: for
    [2 <= mod_], [0 < var] with [gcd (var, mod_) = 1], and a fuel above
    [var + 1], it answers the [r] of [0, mod_) with [var * r = 1] modulo
    [mod_], and no assertion fails. *)
Theorem multinv_returns_inverse :
  forall (fuel : nat) (mod_ var : Z),
    2 <= mod_ -> 0 < var -> Z.gcd var mod_ = 1 ->
    (Z.to_nat var + 1 < fuel)%nat ->
    exists r : Z,
      _multinv fuel mod_ var = Ok r /\
      0 <= r < mod_ /\ (var * r) mod mod_ = 1.
Proof.
  intros fuel M V HM HV Hg Hfuel.
  destruct fuel as [| f]; [lia |].
  unfold _multinv. cbn [multinv_loop].
  destruct (V =? 0) eqn:EV; [lia |].
  pose proof (Z.mod_pos_bound M V HV) as Hmod.
  pose proof (Z.div_mod M V ltac:(lia)) as Hdm.
  destruct (multinv_loop_spec M V f (1 - M / V * 0) 0 V (M mod V))
    as (lx & Hrun & Hlx & ly & Hcomb).
  - lia.
  - lia.
  - exists (- (M / V)). nia.
  - exists 1. lia.
  - replace (1 - M / V * 0) with 1 by lia.
    change (Z.abs 0) with 0. change (Z.abs 1) with 1. lia.
  - change (Z.abs 0) with 0. lia.
  - rewrite Hrun. cbn [bind]. unfold py_floordiv. rewrite EV. cbn [bind].
    rewrite (Z.gcd_comm V), Z.gcd_mod, Hg in Hcomb by lia.
    replace (1 - lx * M) with (ly * V) by lia.
    rewrite Z.div_mul by lia.
    assert (Hly : - M < ly < M).
    { pose proof (Z.abs_nonneg lx).
      destruct (Z.abs_spec lx) as [[? Ha] | [? Ha]]; rewrite Ha in *; nia. }
    set (result := if ly <? 0 then ly + M else ly).
    assert (Hres : 0 <= result < M /\ exists j, V * result = 1 + j * M).
    { unfold result. destruct (ly <? 0) eqn:E.
      - split; [lia |]. exists (V - lx). nia.
      - split; [lia |]. exists (- lx). nia. }
    destruct Hres as [Hrange [j Hj]].
    replace ((0 <=? result) && (result <? M)) with true
      by (symmetry; apply andb_true_iff; split; [apply Z.leb_le | apply Z.ltb_lt]; lia).
    unfold py_mod. destruct (M =? 0) eqn:EM; [lia |]. cbn [bind].
    assert (Hvr : (V * result) mod M = 1).
    { rewrite Hj, Z.mod_add by lia. apply Z.mod_small. lia. }
    rewrite Hvr. cbn [Z.eqb Pos.eqb py_assert bind].
    exists result. repeat split; lia.
Qed.

(** The inverse of [3] modulo [11] is [4]. *)
Lemma multinv_returns_inverse_witness :
  exists r : Z, _multinv 10 11 3 = Ok r /\ 0 <= r < 11 /\ (3 * r) mod 11 = 1.
Proof.
  apply (multinv_returns_inverse 10 11 3); [lia | lia | reflexivity | simpl; lia].
Defined.

(** What [_multinv] returns passed its assertion. *)
Lemma multinv_sound (fuel : nat) (M V r : Z) :
  _multinv fuel M V = Ok r -> 0 <= r < M /\ (V * r) mod M = 1.
Proof.
  unfold _multinv.
  destruct (multinv_loop fuel 0 1 M V) as [lx | e | ]; cbn [bind]; try discriminate.
  destruct (py_floordiv (1 - lx * M) V) as [r0 | e | ]; cbn [bind]; try discriminate.
  set (result := if r0 <? 0 then r0 + M else r0).
  destruct ((0 <=? result) && (result <? M)) eqn:Er; [| discriminate].
  apply andb_true_iff in Er. destruct Er as [E1 E2].
  apply Z.leb_le in E1. apply Z.ltb_lt in E2.
  unfold py_mod. destruct (M =? 0) eqn:EM; [lia |]. cbn [bind].
  destruct ((V * result) mod M =? 1) eqn:Ev; cbn [py_assert bind]; [| discriminate].
  apply Z.eqb_eq in Ev. intros H. injection H as H. subst r. lia.
Qed.

(** X2.  Where there is no inverse, [_multinv] returns nothing: for
    [gcd (var, mod_) <> 1] it never answers a value, whatever the fuel; on
    [(10, 4)] it ends in [AssertionError]. *)
Theorem multinv_no_inverse :
  forall (mod_ var : Z),
    Z.gcd var mod_ <> 1 ->
    forall (fuel : nat) (r : Z), _multinv fuel mod_ var <> Ok r.
Proof.
  intros M V Hg fuel r Hrun. apply Hg.
  apply multinv_sound in Hrun. destruct Hrun as [Hr Hv].
  pose proof (Z.div_mod (V * r) M ltac:(lia)) as Hdm. rewrite Hv in Hdm.
  apply Z.bezout_1_gcd. exists r, (- (V * r / M)). lia.
Qed.

(** [4] has no inverse modulo [10]: the call ends in [AssertionError]. *)
Lemma multinv_no_inverse_witness :
  _multinv 10 10 4 <> Ok 7 /\ _multinv 10 10 4 = Raise AssertionError.
Proof.
  split; [| reflexivity].
  apply (multinv_no_inverse 10 4); vm_compute; discriminate.
Defined.

(** *** Key generation *)




(** *** The primality test *)

(** Modulo a prime the square roots of [1] are [1] and [n - 1]. *)
Lemma sqrt_one_mod_prime (n y : Z) :
  Z.prime n -> 0 <= y < n -> y ^ 2 mod n = 1 -> y = 1 \/ y = n - 1.
Proof.
  intros Hp Hy Hsq. pose proof (Z.prime_ge_2 n Hp) as Hn.
  assert (Hdiv : (n | (y - 1) * (y + 1))).
  { apply Z.mod_divide; [lia |].
    replace ((y - 1) * (y + 1)) with (y ^ 2 - 1) by ring.
    rewrite Zminus_mod, Hsq, Z.mod_1_l, Z.sub_diag by lia.
    apply Z.mod_0_l. lia. }
  apply Z.divide_prime_mul in Hdiv; [| exact Hp].
  destruct Hdiv as [[j Hj] | [j Hj]]; [left | right].
  - assert (j = 0) by nia. subst j. lia.
  - assert (j = 1) by nia. subst j. lia.
Qed.

(** Squaring a residue that is neither [1] nor [n - 1], and whose
    [2 ^ (iters + 1)]-th power is [1], reaches [n - 1] within [iters]
    squarings when [n] is prime. *)
Lemma square_loop_prime (n : Z) (iters : nat) :
  Z.prime n ->
  forall x : Z,
    0 <= x < n -> x <> 1 -> x <> n - 1 ->
    x ^ (2 ^ (Z.of_nat iters + 1)) mod n = 1 ->
    square_loop iters n (n - 1) x = true.
Proof.
  intros Hp. pose proof (Z.prime_ge_2 n Hp) as Hn.
  induction iters as [| i IH]; intros x Hx H1 Hn1 Hpow.
  - exfalso. change (2 ^ (Z.of_nat 0 + 1)) with 2 in Hpow.
    destruct (sqrt_one_mod_prime n x Hp Hx Hpow); contradiction.
  - cbn [square_loop].
    assert (Hx' : 0 <= x ^ 2 mod n < n) by (apply Z.mod_pos_bound; lia).
    assert (Hpow' : (x ^ 2 mod n) ^ (2 ^ (Z.of_nat i + 1)) mod n = 1).
    { rewrite Z.mod_pow_l, <- Z.pow_mul_r by (try apply Z.pow_nonneg; lia).
      rewrite <- Z.pow_succ_r by lia.
      replace (Z.succ (Z.of_nat i + 1)) with (Z.of_nat (S i) + 1) by lia.
      exact Hpow. }
    destruct (x ^ 2 mod n =? 1) eqn:E1.
    + exfalso. apply Z.eqb_eq in E1.
      destruct (sqrt_one_mod_prime n x Hp Hx E1); contradiction.
    + destruct (x ^ 2 mod n =? n - 1) eqn:E2; [reflexivity |].
      apply Z.eqb_neq in E1. apply Z.eqb_neq in E2.
      apply IH; assumption.
Qed.

(** A round on a prime passes for every base in [1, n - 1]. *)
Lemma round_passes_prime (n s d a : Z) :
  Z.prime n -> 1 <= s -> 0 < d -> 2 ^ s * d = n - 1 ->
  1 <= a <= n - 1 ->
  round_passes n (n - 1) s d a = Ok true.
Proof.
  intros Hp Hs Hd Hprod Ha. pose proof (Z.prime_ge_2 n Hp) as Hn.
  unfold round_passes, py_pow.
  destruct (n =? 0) eqn:E0; [lia |].
  destruct (d <? 0) eqn:Ed; [lia |]. cbn [bind].
  set (x := a ^ d mod n).
  assert (Hx : 0 <= x < n) by (apply Z.mod_pos_bound; lia).
  destruct ((x =? 1) || (x =? n - 1)) eqn:E; [reflexivity |].
  apply orb_false_iff in E. destruct E as [E1 E2].
  apply Z.eqb_neq in E1. apply Z.eqb_neq in E2.
  rewrite square_loop_prime; try assumption; [reflexivity |].
  replace (Z.of_nat (Z.to_nat (s - 1)) + 1) with s by lia.
  unfold x. rewrite Z.mod_pow_l, <- Z.pow_mul_r by (try apply Z.pow_nonneg; lia).
  replace (d * 2 ^ s) with (n - 1) by lia.
  apply Z.fermat_nz; [exact Hp |]. rewrite Z.mod_small by lia. lia.
Qed.

(** X4.  The test never rejects a prime unless the base [n] is drawn:
    for a prime [n > 3] and draws that never give [n - 2] (the draw that
    makes the base [n]), [_isprime] answers [True] after its [k] rounds. *)
Theorem isprime_accepts_primes :
  forall (n k : Z) (fuel : nat) (t : tape) (pos : nat),
    Z.prime n -> 3 < n -> n < 2 ^ Z.of_nat fuel ->
    (forall i : nat, t i mod (n - 1) <> n - 2) ->
    _isprime fuel n k t pos = Ok (true, (pos + Z.to_nat k)%nat).
Proof.
  intros n k fuel t pos Hp Hn Hfuel Htape.
  unfold _isprime. destruct (n <=? 3) eqn:E3; [lia |].
  destruct (RSAFacts.split_twos_enough fuel 0 (n - 1))
    as (s & d & Hrun & Hs & Hd & Hprod & Hodd); [lia |].
  rewrite Z.sub_0_r in Hprod.
  unfold rbind at 1, lift at 1. rewrite Hrun. cbn [omap bind].
  unfold rbind at 1, lift at 1.
  replace (2 ^ s * d =? n - 1) with true by (symmetry; apply Z.eqb_eq; exact Hprod).
  replace (Z.land d 1 =? 0) with false by (symmetry; apply Z.eqb_neq; exact Hodd).
  cbn [andb negb py_assert omap bind].
  assert (Hs1 : 1 <= s).
  { destruct (Z.eq_dec s 0) as [E | E]; [| lia]. exfalso.
    rewrite E, Z.pow_0_r, Z.mul_1_l in Hprod.
    assert (Hland : Z.land d 1 = d mod 2) by (apply (Z.land_ones d 1); lia).
    pose proof (Z.div_mod d 2 ltac:(lia)).
    pose proof (Z.mod_pos_bound d 2 ltac:(lia)).
    destruct Hp as [_ Hp]. apply (Hp 2); [lia |].
    exists (d / 2 + 1). lia. }
  generalize (Z.to_nat k) as rounds_left. intros r. revert pos.
  induction r as [| r IH]; intros pos.
  - cbn [rounds]. unfold rret. do 2 f_equal. lia.
  - cbn [rounds]. unfold rbind at 1, draw_base, rbind at 1, randbelow.
    destruct (n - 1 <=? 0) eqn:E; [lia |]. unfold rret at 1.
    pose proof (Z.mod_pos_bound (t pos) (n - 1) ltac:(lia)) as Hr.
    specialize (Htape pos).
    unfold rbind at 1, lift at 1.
    rewrite round_passes_prime by (assumption || lia).
    cbn [omap bind]. rewrite IH. do 2 f_equal. lia.
Qed.

(** [97] is accepted when every draw gives the base [5]. *)
Lemma isprime_accepts_primes_witness :
  _isprime 10 97 30 (fun _ => 3) 0%nat = Ok (true, 30%nat).
Proof.
  apply (isprime_accepts_primes 97 30 10 (fun _ => 3) 0).
  - split; [lia |]. intros m Hm [j Hj].
    assert (H : 2 <= m <= 96) by lia.
    assert (Hj' : 1 <= j <= 48) by nia.
    clear Hm. revert Hj.
    assert (Hsmall : m * j = 97 -> False); [| intros E; apply Hsmall; lia].
    intros E. 
    assert (m <= 9 \/ j <= 9) by nia.
    destruct H0 as [H0 | H0].
    + assert (Hc : m = 2 \/ m = 3 \/ m = 4 \/ m = 5 \/ m = 6 \/ m = 7 \/ m = 8 \/ m = 9) by lia.
      repeat (destruct Hc as [Hc | Hc]; [subst m; lia |]). subst m; lia.
    + assert (Hc : j = 1 \/ j = 2 \/ j = 3 \/ j = 4 \/ j = 5 \/ j = 6 \/ j = 7 \/ j = 8 \/ j = 9) by lia.
      repeat (destruct Hc as [Hc | Hc]; [subst j; lia |]). subst j; lia.
  - lia.
  - simpl; lia.
  - intros i. vm_compute. discriminate.
Defined.

(** The power of [n - 1] to an odd exponent is [n - 1] modulo [n]. *)
Lemma pow_minus_one_odd (n d : Z) :
  3 < n -> 0 < d -> Z.land d 1 <> 0 -> (n - 1) ^ d mod n = n - 1.
Proof.
  intros Hn Hd Hodd.
  assert (Hland : Z.land d 1 = d mod 2) by (apply (Z.land_ones d 1); lia).
  pose proof (Z.div_mod d 2 ltac:(lia)) as Hdm.
  pose proof (Z.mod_pos_bound d 2 ltac:(lia)) as Hm.
  replace d with (1 + 2 * (d / 2)) by lia.
  assert (Hj : 0 <= d / 2) by (apply Z.div_pos; lia).
  rewrite Z.pow_add_r, Z.pow_1_r, Z.pow_mul_r by lia.
  rewrite <- Z.mul_mod_idemp_r, <- Z.mod_pow_l by lia.
  replace ((n - 1) ^ 2 mod n) with 1.
  - rewrite Z.pow_1_l, Z.mod_1_l, Z.mul_1_r by lia. apply Z.mod_small. lia.
  - apply Z.mod_unique with (q := n - 2); [lia | ring].
Qed.

(** X5.  The base [n - 1] passes every round, for every [n > 3], prime
    or not: when each draw gives [n - 3], [_isprime] answers [True]. *)
Theorem isprime_accepts_any_number :
  forall (n k : Z) (fuel pos : nat),
    3 < n -> n < 2 ^ Z.of_nat fuel ->
    _isprime fuel n k (fun _ => n - 3) pos = Ok (true, (pos + Z.to_nat k)%nat).
Proof.
  intros n k fuel pos Hn Hfuel.
  unfold _isprime. destruct (n <=? 3) eqn:E3; [lia |].
  destruct (RSAFacts.split_twos_enough fuel 0 (n - 1))
    as (s & d & Hrun & Hs & Hd & Hprod & Hodd); [lia |].
  rewrite Z.sub_0_r in Hprod.
  unfold rbind at 1, lift at 1. rewrite Hrun. cbn [omap bind].
  unfold rbind at 1, lift at 1.
  replace (2 ^ s * d =? n - 1) with true by (symmetry; apply Z.eqb_eq; exact Hprod).
  replace (Z.land d 1 =? 0) with false by (symmetry; apply Z.eqb_neq; exact Hodd).
  cbn [andb negb py_assert omap bind].
  generalize (Z.to_nat k) as rounds_left. intros r. revert pos.
  induction r as [| r IH]; intros pos.
  - cbn [rounds]. unfold rret. do 2 f_equal. lia.
  - cbn [rounds]. unfold rbind at 1, draw_base, rbind at 1, randbelow.
    destruct (n - 1 <=? 0) eqn:E; [lia |]. unfold rret at 1.
    rewrite Z.mod_small by lia.
    unfold rbind at 1, lift at 1, round_passes, py_pow.
    destruct (n =? 0) eqn:E0; [lia |].
    destruct (d <? 0) eqn:Ed; [lia |]. cbn [bind omap].
    replace (n - 3 + 2) with (n - 1) by lia.
    rewrite pow_minus_one_odd by assumption.
    rewrite Z.eqb_refl, orb_true_r. rewrite IH. do 2 f_equal. lia.
Qed.

(** The composite [1001] is accepted when every draw gives [998]. *)
Lemma isprime_accepts_any_number_witness :
  _isprime 11 1001 30 (fun _ => 1001 - 3) 0%nat = Ok (true, 30%nat).
Proof.
  apply (isprime_accepts_any_number 1001 30 11 0); [lia | simpl; lia].
Defined.

(** *** Bounds that give no key *)

(** X6.  A bound that is not positive makes the first draw fail:
    [secrets.randbelow] raises [ValueError], and so do [generate_keys] and
    the constructor. *)
Theorem generate_keys_nonpositive_bound :
  forall (key_length : Z) (fuel : nat) (t : tape) (pos : nat),
    key_length <= 0 ->
    generate_keys (S fuel) key_length t pos = Raise ValueError /\
    init_generate (S fuel) key_length t pos = Raise ValueError.
Proof.
  intros num fuel t pos Hnum.
  assert (Hgen : generate_keys (S fuel) num t pos = Raise ValueError).
  { unfold generate_keys, _randprime. cbn [randprime_loop].
    unfold rbind at 1 2. rewrite RSAFacts.isprime_small by lia.
    cbn [Z.eqb orb]. unfold rbind at 1, randbelow.
    destruct (num <=? 0) eqn:E; [reflexivity | lia]. }
  split; [exact Hgen |].
  unfold init_generate, rbind. rewrite Hgen. reflexivity.
Qed.

(** [RSAKey(key_length=0)] *)
Lemma generate_keys_nonpositive_bound_witness :
  generate_keys 1 0 (fun _ => 7) 0%nat = Raise ValueError.
Proof.
  apply (generate_keys_nonpositive_bound 0 0 (fun _ => 7) 0). lia.
Defined.

(** X7.  A bound of at most [1111] can give no key: every modulus is
    then at most [1111 * 1111 < 1234567], so the probe check fails whenever
    the sampling loops end, and [generate_keys] never returns a value. *)
Theorem generate_keys_needs_large_bound :
  forall key_length : Z,
    key_length <= 1111 ->
    never_returns (fun fuel => generate_keys fuel key_length).
Proof.
  intros num Hnum.
  destruct (Z_le_gt_dec num 0) as [Hneg | Hpos].
  - intros fuel t pos. destruct fuel as [| f].
    + unfold generate_keys, _randprime. cbn [randprime_loop]. exact I.
    + destruct (generate_keys_nonpositive_bound num f t pos Hneg) as [H _].
      rewrite H. exact I.
  - apply RSAFacts.generate_keys_small_bound. unfold probe. nia.
Qed.

(** The bound [1111], the largest whose square is below the probe. *)
Lemma generate_keys_needs_large_bound_witness :
  never_returns (fun fuel => generate_keys fuel 1111).
Proof.
  apply (generate_keys_needs_large_bound 1111). lia.
Defined.

End KeyGenFacts.

(* ------------------------------------------------------------------ *)
(** ** The block codec and the container *)

Module CodecFacts.
Import RSA.

Lemma rstrip_x00_zeros (data : bytes) (k : nat) :
  rstrip_x00 (data ++ repeat x00 k) = rstrip_x00 data.
Proof.
  unfold rstrip_x00.
  rewrite rev_app_distr, rev_repeat_x00, drop_x00_zeros. reflexivity.
Qed.

Lemma rstrip_x00_padded_chunk (L : Z) (chunk : bytes) :
  rstrip_x00 (padded L chunk) = rstrip_x00 chunk.
Proof. unfold padded, zeros. apply rstrip_x00_zeros. Qed.

(** With exact exponents over two distinct primes, the blocks of a
    ciphertext that [encrypt] wrote decrypt to the pieces of the plaintext,
    each filled to [L] bytes. *)
Lemma decrypt_chunks_of_encrypt (ilog : Z -> Z) (self : RSAKey) (p q : Z)
    (data : bytes) :
  exact_at ilog (composite self) ->
  Z.prime p -> Z.prime q -> p <> q ->
  composite self = p * q -> 256 <= composite self ->
  0 <= pubkey self -> 0 <= privkey self ->
  (pubkey self * privkey self) mod ((p - 1) * (q - 1)) = 1 ->
  let L := floor_log256 (composite self) in
  let cs := chunks (List.length data) (Z.to_nat L) data in
  exists ct : bytes,
    encrypt ilog self (PyBytes data) = Ok ct /\
    chunks (List.length ct) (Z.to_nat (L + 1)) ct = map (encoded_block self L) cs /\
    forall c, In c cs ->
      decrypt_chunk self L (L + 1) (encoded_block self L c) = Ok (padded L c).
Proof.
  intros Hex Hp Hq Hne Hn H256 He Hd Hed L cs.
  destruct (log256_spec ilog (composite self) H256 Hex)
    as (Hlog & HL & Hlo & Hhi).
  fold L in Hlog, HL, Hlo, Hhi.
  exists (List.concat (map (encoded_block self L) cs)).
  split; [apply (RSAFacts.encrypt_blocks ilog self L); assumption |].
  assert (Hcs : Forall (fun c => (0 < List.length c <= Z.to_nat L)%nat) cs)
    by (apply chunks_lengths; lia).
  assert (Hall : Forall (fun b => List.length b = Z.to_nat (L + 1))
                        (map (encoded_block self L) cs)).
  { apply Forall_map, Forall_forall. intros c _.
    apply RSAFacts.length_encoded_block. }
  split.
  - pose proof (chunks_concat (Z.to_nat (L + 1)) (@nil byte) ltac:(lia)
                  ltac:(simpl; lia) (map (encoded_block self L) cs)
                  (List.length (List.concat (map (encoded_block self L) cs))))
      as Hcut.
    rewrite !app_nil_r in Hcut. apply Hcut; [| exact Hall].
    rewrite (length_concat_uniform _ _ Hall). cbn [List.length]. nia.
  - intros c Hin. rewrite Forall_forall in Hcs. specialize (Hcs c Hin).
    apply RSAFacts.decrypt_encoded_block with (p := p) (q := q); try assumption.
    unfold len. lia.
Qed.

(** X8.  For an exact key pair over two distinct primes and every byte
    string [m], ending in null bytes or not, decrypting the encryption gives
    [m] without its trailing null bytes. *)
Theorem decrypt_encrypt_strips_nulls :
  forall (ilog : Z -> Z) (self : RSAKey) (p q : Z) (m : bytes),
    exact_at ilog (composite self) ->
    Z.prime p -> Z.prime q -> p <> q ->
    composite self = p * q -> 256 <= composite self ->
    0 <= pubkey self -> 0 <= privkey self ->
    (pubkey self * privkey self) mod ((p - 1) * (q - 1)) = 1 ->
    (ct <- encrypt ilog self (PyBytes m) ;; decrypt ilog self ct)%outcome
    = Ok (rstrip_x00 m).
Proof.
  intros ilog self p q data Hex Hp Hq Hne Hn H256 He Hd Hed.
  destruct (decrypt_chunks_of_encrypt ilog self p q data)
    as (ct & Henc & Hcut & Hdec); try assumption.
  destruct (log256_spec ilog (composite self) H256 Hex) as (Hlog & HL & _).
  set (L := floor_log256 (composite self)) in *.
  rewrite Henc. cbn [bind].
  rewrite (RSAFacts.decrypt_pieces ilog self L _ HL Hlog), Hcut, map_map.
  rewrite sequence_map_ok with (g := padded L) by exact Hdec.
  cbn [bind].
  destruct (concat_padded_chunks (Z.to_nat L) ltac:(lia) (List.length data) data
              (Nat.le_refl _)) as [k Hk].
  rewrite Z2Nat.id in Hk by lia. rewrite Hk, rstrip_x00_zeros. reflexivity.
Qed.

(** Under the key [(173, 5, 323)] the plaintext [b'a\x00\x00'] comes back
    as [b'a']. *)
Lemma decrypt_encrypt_strips_nulls_witness :
  (ct <- encrypt floor_log256 (init_keys (173, 5, 323))
                 (PyBytes [x61; x00; x00]) ;;
   decrypt floor_log256 (init_keys (173, 5, 323)) ct)%outcome = Ok [x61].
Proof.
  apply (decrypt_encrypt_strips_nulls floor_log256 (init_keys (173, 5, 323))
           17 19 [x61; x00; x00]);
    first [exact RSAFacts.prime_17 | exact RSAFacts.prime_19
          | reflexivity | simpl; lia].
Defined.

(** X9.  For an exact key pair over two distinct primes, the lazy
    decryption of an encryption yields the [L]-byte pieces of the plaintext
    one by one, each without its own trailing null bytes. *)
Theorem lazy_decrypt_yields_stripped_pieces :
  forall (ilog : Z -> Z) (self : RSAKey) (p q : Z) (m : bytes),
    exact_at ilog (composite self) ->
    Z.prime p -> Z.prime q -> p <> q ->
    composite self = p * q -> 256 <= composite self ->
    0 <= pubkey self -> 0 <= privkey self ->
    (pubkey self * privkey self) mod ((p - 1) * (q - 1)) = 1 ->
    let L := floor_log256 (composite self) in
    exists ct : bytes,
      encrypt ilog self (PyBytes m) = Ok ct /\
      forall extra : nat,
        drain (S (List.length ct) + extra)
              (decrypt_generator_next ilog self ct) GenStart =
        Ok (map rstrip_x00 (chunks (List.length m) (Z.to_nat L) m)).
Proof.
  intros ilog self p q data Hex Hp Hq Hne Hn H256 He Hd Hed L.
  destruct (decrypt_chunks_of_encrypt ilog self p q data)
    as (ct & Henc & Hcut & Hdec); try assumption.
  destruct (log256_spec ilog (composite self) H256 Hex) as (Hlog & HL & _).
  fold L in Hlog, HL, Hcut, Hdec.
  exists ct. split; [exact Henc |]. intros extra.
  rewrite RSAFacts.drain_decrypt_generator by lia.
  rewrite Hlog. cbn [bind]. rewrite RSAFacts.py_range_pos by lia. cbn [bind].
  unfold len at 1. rewrite Nat2Z.id. unfold decrypt_block.
  rewrite <- (map_map (fun s => slice ct s (s + (L + 1)))
                      (fun c => omap rstrip_x00 (decrypt_chunk self L (L + 1) c))).
  rewrite slices_chunks by lia. rewrite Hcut, map_map.
  apply sequence_map_ok. intros c Hin.
  rewrite (Hdec c Hin). unfold omap. cbn [bind].
  rewrite rstrip_x00_padded_chunk. reflexivity.
Qed.

(** Under the key [(173, 5, 323)], whose pieces have one byte, the lazy
    decryption of the encryption of [b'a\x00b'] yields [b'a'], [b''] and
    [b'b']. *)
Lemma lazy_decrypt_yields_stripped_pieces_witness :
  exists ct : bytes,
    encrypt floor_log256 (init_keys (173, 5, 323)) (PyBytes [x61; x00; x62])
      = Ok ct /\
    drain (S (List.length ct))
          (decrypt_generator_next floor_log256 (init_keys (173, 5, 323)) ct)
          GenStart = Ok [[x61]; []; [x62]].
Proof.
  destruct (lazy_decrypt_yields_stripped_pieces floor_log256
              (init_keys (173, 5, 323)) 17 19 [x61; x00; x62])
    as (ct & Henc & Hdrain);
    try first [exact RSAFacts.prime_17 | exact RSAFacts.prime_19
              | reflexivity | simpl; lia].
  exists ct. split; [exact Henc |].
  specialize (Hdrain 0%nat). rewrite Nat.add_0_r in Hdrain. exact Hdrain.
Defined.

(** X10.  A key whose modulus is below [256] cannot encrypt: the chunk
    length is [0] (or [math.log] fails on a modulus that is not positive),
    and [encrypt] and the first step of [encrypt_generator] raise
    [ValueError] on every plaintext, the empty one included. *)
Theorem encrypt_small_modulus_raises :
  forall (ilog : Z -> Z) (self : RSAKey) (data : pydata),
    composite self < 256 ->
    (0 < composite self -> ilog (composite self) = 0) ->
    encrypt ilog self data = Raise ValueError /\
    forall extra : nat,
      drain (S extra) (encrypt_generator_next ilog self data) GenStart
      = Raise ValueError.
Proof.
  intros ilog self data Hsmall Hlog.
  assert (Hstart :
            (chunksize <- log256 ilog (composite self) ;;
             py_range (len (to_bytes data)) chunksize)%outcome
            = Raise ValueError).
  { unfold log256. destruct (composite self <=? 0) eqn:E; [reflexivity |].
    rewrite Hlog by lia. reflexivity. }
  split.
  - unfold encrypt. revert Hstart.
    destruct (log256 ilog (composite self)) as [cs | e | ]; cbn [bind];
      [| intros H; injection H as H; subst e; reflexivity | discriminate].
    intros H. rewrite H. reflexivity.
  - intros extra. cbn [drain]. unfold encrypt_generator_next. revert Hstart.
    destruct (log256 ilog (composite self)) as [cs | e | ]; cbn [bind];
      [| intros H; injection H as H; subst e; reflexivity | discriminate].
    intros H. rewrite H. reflexivity.
Qed.

(** The key [(3, 3, 15)] raises on [b'a']. *)
Lemma encrypt_small_modulus_raises_witness :
  encrypt floor_log256 (init_keys (3, 3, 15)) (PyBytes [x61]) = Raise ValueError.
Proof.
  apply (encrypt_small_modulus_raises floor_log256 (init_keys (3, 3, 15))
           (PyBytes [x61])); [simpl; lia | reflexivity].
Defined.

(** An odd number of digits is refused by [unhexlify]. *)
Lemma unhexlify_odd_digits (n : nat) (v : Z) :
  unhexlify (be_digits (S (2 * n)) v) = Raise BinasciiError.
Proof.
  induction n as [| n IH]; [reflexivity |].
  replace (S (2 * S n)) with (S (S (S (2 * n)))) by lia.
  change (be_digits (S (S (S (2 * n)))) v)
    with (hex_char ((v / 16 ^ Z.of_nat (S (S (2 * n)))) mod 16)
          :: hex_char ((v / 16 ^ Z.of_nat (S (2 * n))) mod 16)
          :: be_digits (S (2 * n)) v).
  remember (be_digits (S (2 * n)) v) as tail eqn:Ht.
  cbn [unhexlify].
  rewrite !hex_digit_val_char by (apply Z.mod_pos_bound; lia).
  rewrite IH. reflexivity.
Qed.

Lemma hex_width_odd (L v : Z) :
  0 <= L -> 256 ^ L <= v < 16 * 256 ^ L -> hex_width v = 2 * L + 1.
Proof.
  intros HL Hv. unfold hex_width.
  assert (Hp : 0 < 256 ^ L) by (apply Z.pow_pos_nonneg; lia).
  destruct (v =? 0) eqn:E; [lia |].
  assert (H256 : 256 ^ L = 2 ^ (8 * L)).
  { change 256 with (2 ^ 8). rewrite <- Z.pow_mul_r by lia. reflexivity. }
  assert (Hlo : 8 * L <= Z.log2 v).
  { apply Z.log2_le_pow2; lia. }
  assert (Hhi : Z.log2 v < 8 * L + 4).
  { apply Z.log2_lt_pow2; [lia |].
    rewrite Z.pow_add_r by lia. change (2 ^ 4) with 16. lia. }
  assert (2 * L = Z.log2 v / 4); [| lia].
  apply Z.div_unique with (r := Z.log2 v - 8 * L); lia.
Qed.

(** X11.  On a modulus of at least [256] on which
    [int(math.log(modulus, 256))] is the exact [L = floor (log256 modulus)],
    [decrypt] of a block that the private exponent sends to a number of
    [2 * L + 1] hexadecimal digits, that is into [256 ^ L, 16 * 256 ^ L),
    fails with [binascii.Error]: ['%0<2L>x'] writes an odd number of
    digits. *)
Theorem decrypt_odd_digits_raises :
  forall (ilog : Z -> Z) (self : RSAKey) (data : bytes),
    exact_at ilog (composite self) ->
    256 <= composite self -> 0 <= privkey self ->
    let L := floor_log256 (composite self) in
    data <> [] -> len data <= L + 1 ->
    256 ^ L <= be_val data ^ privkey self mod composite self < 16 * 256 ^ L ->
    decrypt ilog self data = Raise BinasciiError.
Proof.
  intros ilog self data Hex H256 Hd L Hne Hlen Hplain.
  destruct (log256_spec ilog (composite self) H256 Hex) as (Hlog & HL & _).
  fold L in Hlog, HL.
  rewrite (RSAFacts.decrypt_pieces ilog self L _ HL Hlog).
  pose proof (chunks_concat (Z.to_nat (L + 1)) data ltac:(lia)
                ltac:(unfold len in Hlen; lia) [] (List.length data)
                ltac:(simpl; lia) (Forall_nil _)) as Hcut.
  cbn [List.concat app] in Hcut. rewrite Hcut.
  destruct data as [| b rest]; [contradiction |].
  cbn [map sequence]. unfold decrypt_chunk.
  rewrite int16_hexlify by discriminate. cbn [bind]. unfold py_pow.
  destruct (composite self =? 0) eqn:E0; [lia |].
  destruct (privkey self <? 0) eqn:E1; [lia |]. cbn [bind].
  set (plain := be_val (b :: rest) ^ privkey self mod composite self) in *.
  unfold format_hex. destruct (plain <? 0) eqn:E2.
  { assert (0 < 256 ^ L) by (apply Z.pow_pos_nonneg; lia). lia. }
  rewrite (hex_width_odd L plain) by lia.
  rewrite Z.max_r by lia.
  replace (Z.to_nat (2 * L + 1)) with (S (2 * Z.to_nat L)) by lia.
  rewrite unhexlify_odd_digits. reflexivity.
Qed.

(** Under the key [(173, 5, 323)] the block [b'\x00\x09'] decrypts to
    [263], three digits. *)
Lemma decrypt_odd_digits_raises_witness :
  decrypt floor_log256 (init_keys (173, 5, 323)) [x00; x09]
  = Raise BinasciiError.
Proof.
  apply (decrypt_odd_digits_raises floor_log256 (init_keys (173, 5, 323))
           [x00; x09]);
    first [reflexivity | discriminate | simpl; lia | vm_compute; discriminate
          | vm_compute; split; [discriminate | reflexivity]].
Defined.

Lemma hex_width_even (L v : Z) :
  0 <= L -> 16 * 256 ^ L <= v < 256 ^ (L + 1) -> hex_width v = 2 * (L + 1).
Proof.
  intros HL Hv. unfold hex_width.
  assert (Hp : 0 < 256 ^ L) by (apply Z.pow_pos_nonneg; lia).
  destruct (v =? 0) eqn:E; [lia |].
  assert (H256 : forall k, 0 <= k -> 256 ^ k = 2 ^ (8 * k)).
  { intros k Hk. change 256 with (2 ^ 8).
    rewrite <- Z.pow_mul_r by lia. reflexivity. }
  assert (Hlo : 8 * L + 4 <= Z.log2 v).
  { apply Z.log2_le_pow2; [lia |].
    rewrite Z.pow_add_r, <- H256 by lia. change (2 ^ 4) with 16. lia. }
  assert (Hhi : Z.log2 v < 8 * (L + 1)).
  { apply Z.log2_lt_pow2; [lia |]. rewrite <- H256 by lia. lia. }
  assert (2 * L + 1 = Z.log2 v / 4); [| lia].
  apply Z.div_unique with (r := Z.log2 v - 8 * L - 4); lia.
Qed.

(** X12.  On a modulus of at least [256] on which
    [int(math.log(modulus, 256))] is the exact [L = floor (log256 modulus)],
    [decrypt] of a block that the private exponent sends to a number of
    [2 * L + 2] hexadecimal digits, that is to [16 * 256 ^ L] or more, does
    not fail: the block gives [L + 1] bytes instead of [L]. *)
Theorem decrypt_long_block :
  forall (ilog : Z -> Z) (self : RSAKey) (data : bytes),
    exact_at ilog (composite self) ->
    256 <= composite self -> 0 <= privkey self ->
    let L := floor_log256 (composite self) in
    let plain := be_val data ^ privkey self mod composite self in
    data <> [] -> len data <= L + 1 ->
    16 * 256 ^ L <= plain ->
    decrypt ilog self data = Ok (rstrip_x00 (be_bytes (Z.to_nat (L + 1)) plain)).
Proof.
  intros ilog self data Hex H256 Hd L plain Hne Hlen Hplain.
  destruct (log256_spec ilog (composite self) H256 Hex)
    as (Hlog & HL & Hlo & Hhi).
  fold L in Hlog, HL, Hlo, Hhi.
  rewrite (RSAFacts.decrypt_pieces ilog self L _ HL Hlog).
  pose proof (chunks_concat (Z.to_nat (L + 1)) data ltac:(lia)
                ltac:(unfold len in Hlen; lia) [] (List.length data)
                ltac:(simpl; lia) (Forall_nil _)) as Hcut.
  cbn [List.concat app] in Hcut. rewrite Hcut.
  destruct data as [| b rest]; [contradiction |].
  cbn [map sequence]. unfold decrypt_chunk.
  rewrite int16_hexlify by discriminate. cbn [bind]. unfold py_pow.
  destruct (composite self =? 0) eqn:E0; [lia |].
  destruct (privkey self <? 0) eqn:E1; [lia |]. cbn [bind].
  fold plain.
  assert (Hrange : 0 <= plain < composite self)
    by (apply Z.mod_pos_bound; lia).
  unfold format_hex. destruct (plain <? 0) eqn:E2; [lia |].
  rewrite (hex_width_even L plain) by lia.
  rewrite Z.max_r by lia.
  replace (Z.to_nat (2 * (L + 1))) with (2 * Z.to_nat (L + 1))%nat by lia.
  rewrite unhexlify_be_digits. cbn [bind List.concat].
  rewrite app_nil_r. reflexivity.
Qed.

(** Under the key [(1, 1, 5000)], whose pieces have one byte, the block
    [b'\x10\x01'] gives two bytes. *)
Lemma decrypt_long_block_witness :
  decrypt floor_log256 (init_keys (1, 1, 5000)) [x10; x01] = Ok [x10; x01].
Proof.
  apply (decrypt_long_block floor_log256 (init_keys (1, 1, 5000)) [x10; x01]);
    first [reflexivity | discriminate | simpl; lia | vm_compute; discriminate].
Defined.

(** *** The key container *)

(** X13.  What a setter installs is what its getter returns, and both
    setters write the one modulus: after [set_public (e, n)] and then
    [set_private (d, n')] the public half reads [(e, n')]. *)
Theorem setters_then_getters :
  forall (self : RSAKey) (e d n n' : Z),
    get_public (set_public self (e, n)) = Ok (e, n) /\
    get_private (set_private self (d, n)) = Ok (d, n) /\
    get_public (set_private (set_public self (e, n)) (d, n')) = Ok (e, n') /\
    get_private (set_public (set_private self (d, n)) (e, n')) = Ok (d, n').
Proof. intros. repeat split. Qed.

(** X14.  [set_private (d, n)] binds [private], which [decrypt] never
    reads: decryption goes on with the old [privkey], under the new
    modulus. *)
Theorem set_private_not_used_by_decrypt :
  forall (ilog : Z -> Z) (self : RSAKey) (d n : Z) (data : bytes),
    pubkey (set_private self (d, n)) = pubkey self /\
    privkey (set_private self (d, n)) = privkey self /\
    decrypt ilog (set_private self (d, n)) data =
    decrypt ilog (init_keys (pubkey self, privkey self, n)) data.
Proof. intros. repeat split. Qed.

(** X15.  [copy] builds on [keys], which only [__init__] writes: the
    copy of a container as constructed encrypts and decrypts as it does,
    and a copy taken after [set_public] or [set_private] is the copy of the
    container before them, the installed half and modulus left behind. *)
Theorem copy_is_the_constructed_key :
  forall (ks : Z * Z * Z) (self : RSAKey) (half : Z * Z),
    copy (init_keys ks) = init_keys ks /\
    copy (set_public self half) = copy self /\
    copy (set_private self half) = copy self /\
    composite (copy (set_public (init_keys ks) half)) = snd ks.
Proof.
  intros [[e d] n] self half. repeat split.
Qed.

End CodecFacts.

(* ------------------------------------------------------------------ *)
(** ** The stream cipher, continued *)

Module VigenereMore.
Import Vigenere.

Lemma hex_char_is_digit (d : Z) :
  0 <= d < 16 ->
  byte_val (hex_char d) < 128 /\ is_space (hex_char d) = false.
Proof.
  intros Hd.
  assert (H : d = 0 \/ d = 1 \/ d = 2 \/ d = 3 \/ d = 4 \/ d = 5 \/ d = 6 \/
              d = 7 \/ d = 8 \/ d = 9 \/ d = 10 \/ d = 11 \/ d = 12 \/
              d = 13 \/ d = 14 \/ d = 15) by lia.
  repeat (destruct H as [H | H]; [subst d; split; [vm_compute | ]; reflexivity |]).
  subst d; split; [vm_compute |]; reflexivity.
Qed.

Lemma nibbles_in_range (b : byte) :
  0 <= byte_val b / 16 < 16 /\ 0 <= byte_val b mod 16 < 16.
Proof.
  pose proof (byte_val_range b). split.
  - split; [apply Z.div_pos | apply Z.div_lt_upper_bound]; lia.
  - apply Z.mod_pos_bound. lia.
Qed.

(** Every byte of hexadecimal text is one of the sixteen lower-case
    digits. *)
Lemma hexlify_digits (data : bytes) :
  Forall (fun c => exists d, 0 <= d < 16 /\ c = hex_char d) (hexlify data).
Proof.
  induction data as [| b rest IH]; [constructor |].
  destruct (nibbles_in_range b) as [Hhi Hlo].
  cbn [hexlify]. repeat constructor; try assumption;
    eexists; (split; [| reflexivity]); assumption.
Qed.

Lemma ascii_of_byte_val (b : byte) :
  Z.of_N (N_of_ascii (ascii_of_byte b)) = byte_val b.
Proof. destruct b; reflexivity. Qed.

(** Text of ASCII characters encodes to the bytes it was made of. *)
Lemma encode_string_of_bytes (data : bytes) :
  Forall (fun c => byte_val c < 128) data ->
  encode (string_of_list_byte data) = data.
Proof.
  induction 1 as [| b rest Hb _ IH]; [reflexivity |].
  change (string_of_list_byte (b :: rest))
    with (String (ascii_of_byte b) (string_of_list_byte rest)).
  cbn [encode]. rewrite ascii_of_byte_val.
  destruct (byte_val b <? 128) eqn:E; [| lia].
  rewrite byte_of_val, IH. reflexivity.
Qed.

Lemma encode_hexlify (data : bytes) :
  encode (string_of_list_byte (hexlify data)) = hexlify data.
Proof.
  apply encode_string_of_bytes.
  eapply Forall_impl; [| apply hexlify_digits].
  intros c (d & Hd & ->). apply hex_char_is_digit; exact Hd.
Qed.

Lemma length_string_of_bytes (data : bytes) :
  String.length (string_of_list_byte data) = List.length data.
Proof.
  induction data as [| b rest IH]; [reflexivity |].
  change (string_of_list_byte (b :: rest))
    with (String (ascii_of_byte b) (string_of_list_byte rest)).
  cbn [String.length List.length]. rewrite IH. reflexivity.
Qed.

(** [bytes.fromhex] reads back what [hex] wrote. *)
Lemma fromhex_hexlify (data : bytes) : fromhex (hexlify data) = Some data.
Proof.
  induction data as [| b rest IH]; [reflexivity |].
  destruct (nibbles_in_range b) as [Hhi Hlo].
  cbn [hexlify fromhex].
  destruct (hex_char_is_digit _ Hhi) as [_ Hsp]. rewrite Hsp.
  rewrite !hex_digit_val_char by assumption.
  rewrite IH. cbn [option_map]. do 2 f_equal.
  pose proof (Z.div_mod (byte_val b) 16 ltac:(lia)) as Hdm.
  rewrite <- Hdm. apply byte_of_val.
Qed.

(** The loop of [encrypt] and [decrypt] on data no longer than the key:
    byte [i] of the data meets byte [i] of the key. *)
Lemma combine_with_ok (op : Z -> Z -> Z) :
  forall (data keyb : bytes),
    (List.length data <= List.length keyb)%nat ->
    combine_with op {| key := keyb |} data =
    Ok (map (fun ck => op (byte_val (fst ck)) (byte_val (snd ck)) mod 256)
            (List.combine data keyb)).
Proof.
  unfold combine_with. cbn [key].
  induction data as [| d data IH]; intros keyb Hlen; [reflexivity |].
  destruct keyb as [| k keyb]; [simpl in Hlen; lia |].
  cbn [List.length seq map sequence List.combine]. unfold getitem at 1 2.
  cbn [nth_error bind fst snd].
  rewrite <- seq_shift, map_map.
  change (map (fun i => (char <- getitem (d :: data) (S i) ;;
                         key_char <- getitem (k :: keyb) (S i) ;;
                         Ok (op char key_char mod 256))%outcome)
              (seq 0 (List.length data)))
    with (map (fun i => (char <- getitem data i ;;
                         key_char <- getitem keyb i ;;
                         Ok (op char key_char mod 256))%outcome)
              (seq 0 (List.length data))).
  rewrite IH by (simpl in Hlen; lia). reflexivity.
Qed.

Lemma sub_after_add (data keyb : bytes) :
  (List.length data <= List.length keyb)%nat ->
  bytes_of_ints
    (map (fun ck => (byte_val (fst ck) - byte_val (snd ck)) mod 256)
         (List.combine
            (bytes_of_ints
               (map (fun ck => (byte_val (fst ck) + byte_val (snd ck)) mod 256)
                    (List.combine data keyb)))
            keyb)) = data.
Proof.
  revert keyb. induction data as [| d data IH]; intros keyb Hlen; [reflexivity |].
  destruct keyb as [| k keyb]; [simpl in Hlen; lia |].
  cbn [List.combine map bytes_of_ints fst snd].
  rewrite IH by (simpl in Hlen; lia). f_equal.
  pose proof (byte_val_range d). pose proof (byte_val_range k).
  rewrite byte_val_of by (apply Z.mod_pos_bound; lia).
  rewrite Zminus_mod_idemp_l.
  replace (byte_val d + byte_val k - byte_val k) with (byte_val d) by lia.
  rewrite Z.mod_small by lia. apply byte_of_val.
Qed.

(** X16.  On data no longer than the key, [encrypt] returns two
    hexadecimal characters for each byte, and [decrypt] with the same key
    gives the data back. *)
Theorem vigenere_decrypt_encrypt :
  forall (self : VigenereKey) (m : bytes),
    len m <= len (key self) ->
    exists c : string,
      encrypt self (PyBytes m) = Ok c /\
      Z.of_nat (String.length c) = 2 * len m /\
      decrypt self (PyStr c) = Ok m.
Proof.
  intros [keyb] m Hlen. cbn [key] in Hlen. unfold len in Hlen.
  assert (Hl : (List.length m <= List.length keyb)%nat) by lia.
  set (sums := map (fun ck => (byte_val (fst ck) + byte_val (snd ck)) mod 256)
                   (List.combine m keyb)).
  assert (Hsums : List.length (bytes_of_ints sums) = List.length m).
  { unfold bytes_of_ints, sums. rewrite !length_map, length_combine. lia. }
  exists (string_of_list_byte (hexlify (bytes_of_ints sums))).
  split; [| split].
  - unfold encrypt. cbn [pylen key to_bytes].
    replace (len m <=? len keyb) with true
      by (symmetry; apply Z.leb_le; unfold len; lia).
    cbn [py_assert bind]. rewrite (combine_with_ok Z.add) by exact Hl.
    reflexivity.
  - rewrite length_string_of_bytes, length_hexlify, Hsums. unfold len. lia.
  - unfold decrypt. cbn [to_bytes key].
    rewrite encode_hexlify, fromhex_hexlify.
    replace (len (bytes_of_ints sums) <=? len keyb) with true
      by (symmetry; apply Z.leb_le; unfold len; lia).
    cbn [py_assert bind].
    rewrite (combine_with_ok Z.sub) by lia. cbn [bind].
    unfold sums. rewrite sub_after_add by exact Hl. reflexivity.
Qed.

(** The key made from [b'\x58\xc6'] on [b'hey']. *)
Lemma vigenere_decrypt_encrypt_witness :
  exists c : string,
    encrypt (init_key (PyBytes [x58; xc6])) (PyBytes [x68; x65; x79]) = Ok c /\
    Z.of_nat (String.length c) = 2 * 3 /\
    decrypt (init_key (PyBytes [x58; xc6])) (PyStr c) = Ok [x68; x65; x79].
Proof.
  apply (vigenere_decrypt_encrypt (init_key (PyBytes [x58; xc6]))
           [x68; x65; x79]).
  vm_compute. discriminate.
Defined.




(** The loop stops at the first index that raises. *)
Lemma sequence_raises_at {A B : Type} (f : A -> outcome B) (e : exn)
    (l1 : list A) (x : A) (l2 : list A) :
  (forall a, In a l1 -> exists b, f a = Ok b) ->
  f x = Raise e ->
  sequence (map f (l1 ++ x :: l2)) = Raise e.
Proof.
  intros Hok Hx. induction l1 as [| a l1 IH].
  - cbn [app map sequence]. rewrite Hx. reflexivity.
  - cbn [app map sequence].
    destruct (Hok a (or_introl eq_refl)) as [b Hb]. rewrite Hb. cbn [bind].
    rewrite IH by (intros; apply Hok; right; assumption). reflexivity.
Qed.

(** X18.  [encrypt] compares the key with the length of the text before
    encoding it.  A text that is short enough in characters but longer than
    the key once encoded passes the assertion and then reads past the end of
    the key: [IndexError]. *)
Theorem encrypt_text_past_key_raises :
  forall (self : VigenereKey) (s : string),
    Z.of_nat (String.length s) <= len (key self) ->
    len (key self) < len (encode s) ->
    encrypt self (PyStr s) = Raise IndexError.
Proof.
  intros [keyb] s Hchars Hbytes. cbn [key] in *. unfold len in *.
  unfold encrypt. cbn [pylen key to_bytes].
  replace (Z.of_nat (String.length s) <=? len keyb) with true
    by (symmetry; apply Z.leb_le; unfold len; lia).
  cbn [py_assert bind]. unfold combine_with. cbn [key].
  set (data := encode s) in *.
  set (j := List.length keyb).
  replace (List.length data) with (j + S (List.length data - j - 1))%nat
    by (unfold j; lia).
  rewrite seq_app. cbn [seq].
  rewrite sequence_raises_at with (e := IndexError); [reflexivity | |].
  - intros i Hin. apply in_seq in Hin.
    unfold getitem.
    destruct (nth_error data i) as [c |] eqn:Ec;
      [| apply nth_error_None in Ec; unfold j in Hin; lia].
    destruct (nth_error keyb i) as [k |] eqn:Ek;
      [| apply nth_error_None in Ek; unfold j in Hin; lia].
    cbn [bind]. eexists. reflexivity.
  - unfold getitem. rewrite Nat.add_0_l.
    destruct (nth_error data j) as [c |] eqn:Ec;
      [| apply nth_error_None in Ec; unfold j in Ec; lia].
    assert (Ek : nth_error keyb j = None) by (apply nth_error_None; unfold j; lia).
    rewrite Ek. reflexivity.
Qed.

(** Two characters of code point [233] under a key of two bytes. *)
Lemma encrypt_text_past_key_raises_witness :
  encrypt (init_key (PyBytes [x58]))
          (PyStr (String (ascii_of_nat 233)
                         (String (ascii_of_nat 233) EmptyString)))
  = Raise IndexError.
Proof.
  apply (encrypt_text_past_key_raises (init_key (PyBytes [x58]))).
  - vm_compute. discriminate.
  - vm_compute. reflexivity.
Defined.

End VigenereMore.
